(** * A shallow embedding of the BST engine of [bst_visualizer.py]

    The Python model keeps its nodes as heap objects that point at each
    other ([left], [right], [parent]) and compares them by identity.  The
    embedding keeps an explicit object store: a node reference is an index
    into an arena of node records, allocation appends to the arena, and an
    attribute assignment overwrites one record.  Every operation threads
    the store explicitly and reports Python's [AttributeError] (attribute
    access on [None]) as a fault.

    Keys are Python integers, hence [Z].  The [while] loops and the nested
    recursive helpers take a bound on the number of nodes they may visit;
    the operations pass the number of allocated nodes, and the theorems
    show that on every well-formed tree this bound is never reached.  The
    interpreter's recursion limit is not part of the model. *)

From Stdlib Require Import ZArith List Lia Sorted.
From stdpp Require Import base numbers option list sets sorting gmap.

Open Scope Z_scope.

(* stdpp's solvers clear hypotheses by generated names *)
Set Warnings "-clear-no-such-hyp".

(** ** Data model *)

Definition ref := nat.

(** [class BSTNode]: [key], [left], [right], [parent]. *)
Record BSTNode := mkNode {
  key : Z;
  left : option ref;
  right : option ref;
  parent : option ref
}.

(** [class BST] together with the object store its nodes live in. *)
Record BST := mkBST {
  heap : list BSTNode;
  root : option ref
}.

(** [BST.__init__] *)
Definition empty : BST := mkBST [] None.

(** Outcomes.  [AttributeError] is what Python raises on [None.left] and
    the like.  [DanglingRef] (a reference outside the store) and
    [OutOfFuel] (a loop bound exhausted) have no Python counterpart. *)
Inductive fault := AttributeError | DanglingRef | OutOfFuel.

Inductive result (A : Type) :=
| Ok (a : A)
| Fail (f : fault).
Arguments Ok {A} a.
Arguments Fail {A} f.

#[global] Instance result_bind : MBind result := fun A B k m =>
  match m with
  | Ok a => k a
  | Fail f => Fail f
  end.

(** ** Object store primitives *)

(** Attribute read through a possibly-[None] reference. *)
Definition load (b : BST) (x : option ref) : result BSTNode :=
  match x with
  | None => Fail AttributeError
  | Some i =>
      match heap b !! i with
      | Some n => Ok n
      | None => Fail DanglingRef
      end
  end.

Definition store (b : BST) (i : ref) (n : BSTNode) : BST :=
  mkBST (<[i := n]> (heap b)) (root b).

Definition set_root (b : BST) (v : option ref) : BST :=
  mkBST (heap b) v.

(** [x.left = v] *)
Definition set_left (b : BST) (x : option ref) (v : option ref) : result BST :=
  n ← load b x;
  match x with
  | Some i => Ok (store b i (mkNode (key n) v (right n) (parent n)))
  | None => Fail AttributeError
  end.

(** [x.right = v] *)
Definition set_right (b : BST) (x : option ref) (v : option ref) : result BST :=
  n ← load b x;
  match x with
  | Some i => Ok (store b i (mkNode (key n) (left n) v (parent n)))
  | None => Fail AttributeError
  end.

(** [x.parent = v] *)
Definition set_parent (b : BST) (x : option ref) (v : option ref) : result BST :=
  n ← load b x;
  match x with
  | Some i => Ok (store b i (mkNode (key n) (left n) (right n) v))
  | None => Fail AttributeError
  end.

(** [BSTNode(key=key, parent=y)]: the fresh object gets the next index. *)
Definition alloc (b : BST) (n : BSTNode) : ref * BST :=
  (length (heap b), mkBST (heap b ++ [n]) (root b)).

(** ** Operations of [class BST] *)

(** The [while] loop of [insert]: [inl x] is the early return on a
    duplicate, [inr y] the value of [y] when the loop falls through. *)
Fixpoint insert_loop (fuel : nat) (b : BST) (k : Z) (x y : option ref)
  : result (ref + option ref) :=
  match x with
  | None => Ok (inr y)
  | Some i =>
      match fuel with
      | O => Fail OutOfFuel
      | S fuel' =>
          n ← load b x;
          if k =? key n then Ok (inl i)
          else insert_loop fuel' b k (if k <? key n then left n else right n) x
      end
  end.

(** [BST.insert]: returns [(z, y)] as the source does, and the new state. *)
Definition insert (b : BST) (k : Z) : result ((option ref * option ref) * BST) :=
  w ← insert_loop (length (heap b)) b k (root b) None;
  match w with
  | inl x => Ok ((None, Some x), b)
  | inr y =>
      let '(z, b1) := alloc b (mkNode k None None y) in
      b2 ← match y with
           | None => Ok (set_root b1 (Some z))
           | Some _ =>
               ny ← load b1 y;
               if k <? key ny then set_left b1 y (Some z)
               else set_right b1 y (Some z)
           end;
      Ok ((Some z, y), b2)
  end.

(** The [while] loop of [search]; [path] is the list built by [append]. *)
Fixpoint search_loop (fuel : nat) (b : BST) (k : Z) (x : option ref)
    (path : list ref) : result (list ref * option ref) :=
  match x with
  | None => Ok (path, None)
  | Some i =>
      match fuel with
      | O => Fail OutOfFuel
      | S fuel' =>
          n ← load b x;
          if k =? key n then Ok (path ++ [i], Some i)
          else search_loop fuel' b k
                 (if k <? key n then left n else right n) (path ++ [i])
      end
  end.

(** [BST.search] *)
Definition search (b : BST) (k : Z) : result (list ref * option ref) :=
  search_loop (length (heap b)) b k (root b) [].

(** [BST.minimum]: [while x.left is not None: x = x.left]. *)
Fixpoint minimum_loop (fuel : nat) (b : BST) (x : option ref)
  : result (option ref) :=
  n ← load b x;
  match left n with
  | None => Ok x
  | Some _ =>
      match fuel with
      | O => Fail OutOfFuel
      | S fuel' => minimum_loop fuel' b (left n)
      end
  end.

Definition minimum (b : BST) (x : option ref) : result (option ref) :=
  minimum_loop (length (heap b)) b x.

(** [BSTNode.is_left_child] *)
Definition is_left_child (b : BST) (self : option ref) : result bool :=
  n ← load b self;
  match parent n with
  | None => Ok false
  | Some _ =>
      p ← load b (parent n);
      Ok (bool_decide (left p = self))
  end.

(** [BSTNode.is_right_child] *)
Definition is_right_child (b : BST) (self : option ref) : result bool :=
  n ← load b self;
  match parent n with
  | None => Ok false
  | Some _ =>
      p ← load b (parent n);
      Ok (bool_decide (right p = self))
  end.

(** [BST.transplant] *)
Definition transplant (b : BST) (u : option ref) (v : option ref) : result BST :=
  nu ← load b u;
  b1 ← match parent nu with
       | None => Ok (set_root b v)
       | Some _ =>
           l ← is_left_child b u;
           if l : bool then set_left b (parent nu) v
           else set_right b (parent nu) v
       end;
  match v with
  | None => Ok b1
  | Some _ =>
      nu' ← load b1 u;
      set_parent b1 v (parent nu')
  end.

(** [BST.delete] *)
Definition delete (b : BST) (k : Z) : result (option ref * BST) :=
  '(_, z) ← search b k;
  match z with
  | None => Ok (None, b)
  | Some _ =>
      nz ← load b z;
      b' ← match left nz with
           | None => transplant b z (right nz)
           | Some _ =>
               match right nz with
               | None => transplant b z (left nz)
               | Some _ =>
                   y ← minimum b (right nz);
                   ny ← load b y;
                   b1 ← (if bool_decide (parent ny = z) then Ok b
                         else
                           b2 ← transplant b y (right ny);
                           nz2 ← load b2 z;
                           b3 ← set_right b2 y (right nz2);
                           ny3 ← load b3 y;
                           match right ny3 with
                           | None => Ok b3
                           | Some _ => set_parent b3 (right ny3) y
                           end);
                   b4 ← transplant b1 z y;
                   nz4 ← load b4 z;
                   b5 ← set_left b4 y (left nz4);
                   ny5 ← load b5 y;
                   match left ny5 with
                   | None => Ok b5
                   | Some _ => set_parent b5 (left ny5) y
                   end
               end
           end;
      Ok (z, b')
  end.

(** [BST.inorder]: the nested [dfs], with [res] threaded through. *)
Fixpoint inorder_dfs (fuel : nat) (b : BST) (n : option ref) (res : list Z)
  : result (list Z) :=
  match n with
  | None => Ok res
  | Some _ =>
      match fuel with
      | O => Fail OutOfFuel
      | S fuel' =>
          nd ← load b n;
          res1 ← inorder_dfs fuel' b (left nd) res;
          inorder_dfs fuel' b (right nd) (res1 ++ [key nd])
      end
  end.

Definition inorder (b : BST) : result (list Z) :=
  inorder_dfs (length (heap b)) b (root b) [].

(** [BST.nodes] *)
Fixpoint nodes_dfs (fuel : nat) (b : BST) (n : option ref) (out : list ref)
  : result (list ref) :=
  match n with
  | None => Ok out
  | Some i =>
      match fuel with
      | O => Fail OutOfFuel
      | S fuel' =>
          nd ← load b n;
          out1 ← nodes_dfs fuel' b (left nd) out;
          nodes_dfs fuel' b (right nd) (out1 ++ [i])
      end
  end.

Definition nodes (b : BST) : result (list ref) :=
  nodes_dfs (length (heap b)) b (root b) [].

(** [BST.depth]: the nested [h]. *)
Fixpoint depth_h (fuel : nat) (b : BST) (n : option ref) : result nat :=
  match n with
  | None => Ok 0%nat
  | Some _ =>
      match fuel with
      | O => Fail OutOfFuel
      | S fuel' =>
          nd ← load b n;
          hl ← depth_h fuel' b (left nd);
          hr ← depth_h fuel' b (right nd);
          Ok (1 + Nat.max hl hr)%nat
      end
  end.

Definition depth (b : BST) : result nat :=
  depth_h (length (heap b)) b (root b).

(** [BST.clear] *)
Definition clear (b : BST) : BST := set_root b None.

(** ** Operation sequences *)

Inductive op := Insert (k : Z) | Delete (k : Z).

Definition step (b : BST) (o : op) : result BST :=
  match o with
  | Insert k => '(_, b') ← insert b k; Ok b'
  | Delete k => '(_, b') ← delete b k; Ok b'
  end.

Fixpoint run (b : BST) (ops : list op) : result BST :=
  match ops with
  | [] => Ok b
  | o :: ops' => b' ← step b o; run b' ops'
  end.

Definition keys_of (b : BST) (l : list ref) : list Z :=
  omap (fun i => key <$> heap b !! i) l.

Definition scenario : list op :=
  map Insert [8; 3; 10; 1; 6; 14; 4; 7; 13].

(** ** The abstract shape of a store

    A [tree] names, for every node, its reference and its key.  [shaped]
    says that the store holds exactly this tree below a given parent:
    every [left], [right] and [parent] attribute is the one the tree
    prescribes. *)

Inductive tree :=
| Leaf
| Node (l : tree) (i : ref) (k : Z) (r : tree).

Definition ptr (t : tree) : option ref :=
  match t with
  | Leaf => None
  | Node _ i _ _ => Some i
  end.

Fixpoint ids (t : tree) : list ref :=
  match t with
  | Leaf => []
  | Node l i _ r => ids l ++ i :: ids r
  end.

Fixpoint elements (t : tree) : list Z :=
  match t with
  | Leaf => []
  | Node l _ k r => elements l ++ k :: elements r
  end.

Fixpoint height (t : tree) : nat :=
  match t with
  | Leaf => 0
  | Node l _ _ r => S (Nat.max (height l) (height r))
  end.

Fixpoint shaped (h : list BSTNode) (par : option ref) (t : tree) : Prop :=
  match t with
  | Leaf => True
  | Node l i k r =>
      h !! i = Some (mkNode k (ptr l) (ptr r) par)
      ∧ shaped h (Some i) l ∧ shaped h (Some i) r
  end.

(** The per-node ordering property of a binary search tree. *)
Fixpoint ordered (t : tree) : Prop :=
  match t with
  | Leaf => True
  | Node l _ k r =>
      Forall (fun x => x < k) (elements l)
      ∧ Forall (fun x => k < x) (elements r)
      ∧ ordered l ∧ ordered r
  end.

(** One-hole contexts, innermost frame first. *)
Inductive frame :=
| InLeft (i : ref) (k : Z) (r : tree)
| InRight (l : tree) (i : ref) (k : Z).

Definition fill (f : frame) (t : tree) : tree :=
  match f with
  | InLeft i k r => Node t i k r
  | InRight l i k => Node l i k t
  end.

Fixpoint plug (c : list frame) (t : tree) : tree :=
  match c with
  | [] => t
  | f :: c' => plug c' (fill f t)
  end.

Definition frame_id (f : frame) : ref :=
  match f with
  | InLeft i _ _ => i
  | InRight _ i _ => i
  end.

Definition frame_key (f : frame) : Z :=
  match f with
  | InLeft _ k _ => k
  | InRight _ _ k => k
  end.

Definition sibling (f : frame) : tree :=
  match f with
  | InLeft _ _ r => r
  | InRight l _ _ => l
  end.

(** The record a frame's node must hold when the hole contains [hp]. *)
Definition frame_node (f : frame) (hp par : option ref) : BSTNode :=
  match f with
  | InLeft _ k r => mkNode k hp (ptr r) par
  | InRight l _ k => mkNode k (ptr l) hp par
  end.

Definition hole_parent (top : option ref) (c : list frame) : option ref :=
  match c with
  | [] => top
  | f :: _ => Some (frame_id f)
  end.

Fixpoint shaped_ctx (h : list BSTNode) (top : option ref) (c : list frame)
    (hp : option ref) : Prop :=
  match c with
  | [] => True
  | f :: c' =>
      h !! frame_id f = Some (frame_node f hp (hole_parent top c'))
      ∧ shaped h (Some (frame_id f)) (sibling f)
      ∧ shaped_ctx h top c' (Some (frame_id f))
  end.

Fixpoint ctx_ids (c : list frame) : list ref :=
  match c with
  | [] => []
  | f :: c' => frame_id f :: ids (sibling f) ++ ctx_ids c'
  end.

Fixpoint before (c : list frame) : list Z :=
  match c with
  | [] => []
  | InLeft _ _ _ :: c' => before c'
  | InRight l _ k :: c' => before c' ++ elements l ++ [k]
  end.

Fixpoint after (c : list frame) : list Z :=
  match c with
  | [] => []
  | InLeft _ k r :: c' => k :: elements r ++ after c'
  | InRight _ _ _ :: c' => after c'
  end.

(** A context lies on the search path of [x]: the hole is to the left of
    larger keys and to the right of smaller ones. *)
Definition on_path (x : Z) (f : frame) : Prop :=
  match f with
  | InLeft _ k _ => x < k
  | InRight _ _ k => k < x
  end.

(** The position the comparison walk of [insert] and [search] ends at. *)
Fixpoint descend (x : Z) (t : tree) : list frame * tree :=
  match t with
  | Leaf => ([], Leaf)
  | Node l i k r =>
      if x =? k then ([], t)
      else if x <? k then
        let '(c, s) := descend x l in (c ++ [InLeft i k r], s)
      else
        let '(c, s) := descend x r in (c ++ [InRight l i k], s)
  end.

(** The position the walk of [minimum] ends at. *)
Fixpoint leftmost (t : tree) : list frame * tree :=
  match t with
  | Leaf => ([], Leaf)
  | Node l i k r =>
      match l with
      | Leaf => ([], t)
      | Node _ _ _ _ =>
          let '(c, s) := leftmost l in (c ++ [InLeft i k r], s)
      end
  end.

(** The result of removing the node in the hole of a context: the three
    cases of [delete]. *)
Definition spliced (l r : tree) : tree :=
  match l, r with
  | Leaf, _ => r
  | _, Leaf => l
  | _, _ =>
      match leftmost r with
      | (cr, Node _ y ky ry) => Node l y ky (plug cr ry)
      | (_, Leaf) => Leaf
      end
  end.

Definition insert_tree (z : ref) (x : Z) (t : tree) : tree :=
  match descend x t with
  | (c, Leaf) => plug c (Node Leaf z x Leaf)
  | (_, Node _ _ _ _) => t
  end.

Definition delete_tree (x : Z) (t : tree) : tree :=
  match descend x t with
  | (c, Node l _ _ r) => plug c (spliced l r)
  | (_, Leaf) => t
  end.

(** The representation invariant tying a state to a tree. *)
Record represents (b : BST) (t : tree) : Prop := {
  rep_root : root b = ptr t;
  rep_shaped : shaped (heap b) None t;
  rep_nodup : NoDup (ids t);
  rep_sorted : StronglySorted Z.lt (elements t)
}.

(** ** Definitions used to state the properties *)

Fixpoint trail (x : Z) (t : tree) : list ref :=
  match t with
  | Leaf => []
  | Node l i k r =>
      i :: (if x =? k then [] else if x <? k then trail x l else trail x r)
  end.

(** [reach h p j]: node [j] is in the subtree hanging from reference [p],
    following [left] and [right] attributes. *)
Inductive reach (h : list BSTNode) : option ref → ref → Prop :=
| reach_here i : reach h (Some i) i
| reach_left i n j :
    h !! i = Some n → reach h (left n) j → reach h (Some i) j
| reach_right i n j :
    h !! i = Some n → reach h (right n) j → reach h (Some i) j.

(** The nodes of the tree are those reachable from the root. *)
Definition in_tree (b : BST) (i : ref) : Prop := reach (heap b) (root b) i.

(** The BST invariant: around every node of the tree the left subtree holds
    smaller keys and the right subtree larger ones, and no key occurs in
    two nodes. *)
Definition bst_invariant (b : BST) : Prop :=
  (∀ n nd, in_tree b n → heap b !! n = Some nd →
     (∀ m md, reach (heap b) (left nd) m → heap b !! m = Some md →
        key md < key nd)
     ∧ (∀ m md, reach (heap b) (right nd) m → heap b !! m = Some md →
        key nd < key md))
  ∧ (∀ n m nd md, in_tree b n → in_tree b m →
       heap b !! n = Some nd → heap b !! m = Some md →
       key nd = key md → n = m).

(** Parent-link consistency. *)
Definition links_consistent (b : BST) : Prop :=
  (∀ r, root b = Some r →
     ∃ nr, heap b !! r = Some nr ∧ parent nr = None)
  ∧ (∀ n nd p, in_tree b n → heap b !! n = Some nd → parent nd = Some p →
       ∃ np, heap b !! p = Some np ∧ in_tree b p
         ∧ ((left np = Some n ∧ right np ≠ Some n)
            ∨ (left np ≠ Some n ∧ right np = Some n)))
  ∧ (∀ p np c, in_tree b p → heap b !! p = Some np →
       left np = Some c ∨ right np = Some c →
       ∃ nc, heap b !! c = Some nc ∧ parent nc = Some p).

(** The set of keys an operation sequence leaves present. *)
Definition key_set (s : gset Z) (ops : list op) : gset Z :=
  foldl (fun s o =>
           match o with
           | Insert k => s ∪ {[k]}
           | Delete k => s ∖ {[k]}
           end) s ops.

(** The comparison trail of [search], following the description of the
    operation: start at a reference, record the node, stop on an equal key,
    go left on a smaller key and right on a larger one, stop with no node
    found on an empty reference. *)
Inductive walk (h : list BSTNode) (k : Z)
  : option ref → list ref → option ref → Prop :=
| walk_end : walk h k None [] None
| walk_found i n :
    h !! i = Some n → k = key n → walk h k (Some i) [i] (Some i)
| walk_left i n path found :
    h !! i = Some n → k < key n → walk h k (left n) path found →
    walk h k (Some i) (i :: path) found
| walk_right i n path found :
    h !! i = Some n → key n < k → walk h k (right n) path found →
    walk h k (Some i) (i :: path) found.

(** A small concrete state: 8 at the root, 3 and 10 below it. *)
Definition sample : BST :=
  mkBST [mkNode 8 (Some 1%nat) (Some 2%nat) None;
         mkNode 3 None None (Some 0%nat);
         mkNode 10 None None (Some 0%nat)]
        (Some 0%nat).

Definition sample_tree : tree :=
  Node (Node Leaf 1%nat 3 Leaf) 0%nat 8 (Node Leaf 2%nat 10 Leaf).

(** Conjunctions of closed facts about concrete states, by evaluation. *)
Ltac by_evaluation :=
  repeat match goal with |- _ ∧ _ => split end;
  first [vm_compute; reflexivity | vm_compute; intros [=]].

Ltac solve_represents :=
  constructor;
  [ reflexivity
  | simpl; repeat split; reflexivity
  | simpl; repeat (apply NoDup_cons_2; [set_solver|]); apply NoDup_nil_2
  | simpl; repeat (apply SSorted_cons; [|repeat constructor; lia]);
    apply SSorted_nil ].

(** The node a reference points at, if any. *)
Definition get (b : BST) (x : option ref) : option BSTNode :=
  match x with
  | Some i => heap b !! i
  | None => None
  end.

(** A two-node state: 2 at the root with left child 1. *)
Definition pair_state : BST :=
  mkBST [mkNode 2 (Some 1%nat) None None; mkNode 1 None None (Some 0%nat)]
        (Some 0%nat).

(** ** Definitions for the further properties *)

(** The nodes of a tree with their keys, in traversal order. *)
Fixpoint items (t : tree) : list (ref * Z) :=
  match t with
  | Leaf => []
  | Node l i k r => items l ++ (i, k) :: items r
  end.

Fixpoint items_before (c : list frame) : list (ref * Z) :=
  match c with
  | [] => []
  | InLeft _ _ _ :: c' => items_before c'
  | InRight l i k :: c' => items_before c' ++ items l ++ [(i, k)]
  end.

Fixpoint items_after (c : list frame) : list (ref * Z) :=
  match c with
  | [] => []
  | InLeft i k r :: c' => (i, k) :: items r ++ items_after c'
  | InRight _ _ _ :: c' => items_after c'
  end.

(** Every node object of [b] is still there in [b'] with the key it had. *)
Definition keys_kept (b b' : BST) : Prop :=
  ∀ i nd, heap b !! i = Some nd →
    ∃ nd', heap b' !! i = Some nd' ∧ key nd' = key nd.

(** No object is allocated or lost between [b] and [b'], and every node
    object holds the key it held. *)
Definition same_objects (b b' : BST) : Prop :=
  length (heap b') = length (heap b) ∧ keys_kept b b'.

(** A tree in which no node has a left child. *)
Fixpoint right_spine (t : tree) : Prop :=
  match t with
  | Leaf => True
  | Node l _ _ r => l = Leaf ∧ right_spine r
  end.

(** The bookkeeping of [BSTVisualizer.compute_layout]: the counter
    [index] and the dictionaries [x_index] and [depth] (here [depth_map],
    [depth] being the name of the tree operation), keyed by node
    identity. *)
Record layout := mkLayout {
  index : nat;
  x_index : gmap ref nat;
  depth_map : gmap ref nat
}.

(** The nested [dfs(n, d)] of [compute_layout]. *)
Fixpoint layout_dfs (fuel : nat) (b : BST) (n : option ref) (d : nat)
    (st : layout) : result layout :=
  match n with
  | None => Ok st
  | Some i =>
      match fuel with
      | O => Fail OutOfFuel
      | S fuel' =>
          let st1 := mkLayout (index st) (x_index st)
                       (<[i := d]> (depth_map st)) in
          nd ← load b n;
          st2 ← layout_dfs fuel' b (left nd) (S d) st1;
          let st3 := mkLayout (S (index st2))
                       (<[i := index st2]> (x_index st2)) (depth_map st2) in
          layout_dfs fuel' b (right nd) (S d) st3
      end
  end.

(** [index = 0; x_index = {}; depth = {}; dfs(self.bst.root, 0)] *)
Definition compute_layout_dfs (b : BST) : result layout :=
  layout_dfs (length (heap b)) b (root b) 0 (mkLayout 0 ∅ ∅).

(** The same bookkeeping on the abstract tree. *)
Fixpoint lay (t : tree) (d : nat) (st : layout) : layout :=
  match t with
  | Leaf => st
  | Node l i _ r =>
      let st2 := lay l (S d)
                   (mkLayout (index st) (x_index st)
                      (<[i := d]> (depth_map st))) in
      lay r (S d)
        (mkLayout (S (index st2)) (<[i := index st2]> (x_index st2))
           (depth_map st2))
  end.

(** ** Contexts and trees *)

Lemma plug_app c1 c2 t : plug (c1 ++ c2) t = plug c2 (plug c1 t).
Proof. revert t. induction c1 as [|f c1 IH]; intros t; simpl; [done|apply IH]. Qed.

Lemma elements_plug c t :
  elements (plug c t) = before c ++ elements t ++ after c.
Proof.
  revert t. induction c as [|[i k r|l i k] c IH]; intros t; simpl.
  - by rewrite app_nil_r.
  - rewrite IH. simpl. by rewrite <- !app_assoc.
  - rewrite IH. simpl. rewrite <- !app_assoc. simpl. done.
Qed.

Lemma ids_plug c t : ids (plug c t) ≡ₚ ids t ++ ctx_ids c.
Proof.
  revert t. induction c as [|[i k r|l i k] c IH]; intros t; simpl.
  - by rewrite app_nil_r.
  - rewrite IH. simpl. rewrite <- !app_assoc. simpl. done.
  - rewrite IH. cbn [fill ids ctx_ids frame_id sibling].
    rewrite <- app_assoc.
    etransitivity;
      [symmetry; apply (Permutation_middle (ids l) (ids t ++ ctx_ids c) i)|].
    etransitivity;
      [|apply (Permutation_middle (ids t) (ids l ++ ctx_ids c) i)].
    apply Permutation_skip.
    rewrite !app_assoc. apply Permutation_app_tail, Permutation_app_comm.
Qed.

Lemma ctx_ids_app c1 c2 : ctx_ids (c1 ++ c2) = ctx_ids c1 ++ ctx_ids c2.
Proof.
  induction c1 as [|f c1 IH]; simpl; [done|].
  by rewrite IH, <- app_assoc.
Qed.

Lemma hole_parent_snoc top c f :
  hole_parent top (c ++ [f]) = hole_parent (Some (frame_id f)) c.
Proof. by destruct c. Qed.

Lemma ptr_plug_snoc c f t : ptr (plug (c ++ [f]) t) = Some (frame_id f).
Proof. rewrite plug_app. simpl. by destruct f. Qed.

Lemma ptr_fill f t : ptr (fill f t) = Some (frame_id f).
Proof. by destruct f. Qed.

Lemma ptr_plug_cons f c t t' : ptr (plug (f :: c) t) = ptr (plug (f :: c) t').
Proof.
  revert f t t'. induction c as [|g c IH]; intros f t t'.
  - simpl. by rewrite !ptr_fill.
  - change (ptr (plug (g :: c) (fill f t)) = ptr (plug (g :: c) (fill f t'))).
    apply IH.
Qed.

Lemma shaped_fill h par f t :
  shaped h par (fill f t) ↔
    h !! frame_id f = Some (frame_node f (ptr t) par)
    ∧ shaped h (Some (frame_id f)) (sibling f)
    ∧ shaped h (Some (frame_id f)) t.
Proof. destruct f; simpl; tauto. Qed.

Lemma shaped_plug h top c t :
  shaped h top (plug c t) ↔
    shaped_ctx h top c (ptr t) ∧ shaped h (hole_parent top c) t.
Proof.
  revert t. induction c as [|f c IH]; intros t; simpl.
  - tauto.
  - rewrite IH, shaped_fill, ptr_fill. tauto.
Qed.

Lemma shaped_ext h h' par t :
  shaped h par t →
  (∀ i, i ∈ ids t → h' !! i = h !! i) →
  shaped h' par t.
Proof.
  revert par. induction t as [|l IHl i k r IHr]; intros par; simpl; [done|].
  intros (Hi & Hl & Hr) Hext. split_and!.
  - rewrite Hext; [done|]. set_solver.
  - apply IHl; [done|]. intros j Hj. apply Hext. set_solver.
  - apply IHr; [done|]. intros j Hj. apply Hext. set_solver.
Qed.

Lemma shaped_ctx_ext h h' top c hp :
  shaped_ctx h top c hp →
  (∀ i, i ∈ ctx_ids c → h' !! i = h !! i) →
  shaped_ctx h' top c hp.
Proof.
  revert hp. induction c as [|f c IH]; intros hp; simpl; [done|].
  intros (Hi & Hs & Hc) Hext. split_and!.
  - rewrite Hext; [done|]. set_solver.
  - eapply shaped_ext; [done|]. intros j Hj. apply Hext. set_solver.
  - apply IH; [done|]. intros j Hj. apply Hext. set_solver.
Qed.

(** Changing what hangs in the hole only touches the innermost frame. *)
Lemma shaped_ctx_relink h h' top f c hp hp' :
  shaped_ctx h top (f :: c) hp →
  NoDup (ctx_ids (f :: c)) →
  h' !! frame_id f = Some (frame_node f hp' (hole_parent top c)) →
  (∀ j, j ∈ ctx_ids (f :: c) → j ≠ frame_id f → h' !! j = h !! j) →
  shaped_ctx h' top (f :: c) hp'.
Proof.
  simpl. intros (Hi & Hs & Hc) Hnd Hf Hext.
  apply NoDup_cons in Hnd as [Hnin Hnd].
  split_and!; [done| |].
  - eapply shaped_ext; [done|]. intros j Hj. apply Hext; set_solver.
  - eapply shaped_ctx_ext; [done|]. intros j Hj. apply Hext; set_solver.
Qed.

Lemma shaped_reparent h h' par par' l i k r :
  shaped h par (Node l i k r) →
  h' !! i = Some (mkNode k (ptr l) (ptr r) par') →
  (∀ j, j ∈ ids l ++ ids r → h' !! j = h !! j) →
  shaped h' par' (Node l i k r).
Proof.
  simpl. intros (Hi & Hl & Hr) Hi' Hext. split_and!; [done| |].
  - eapply shaped_ext; [done|]. intros j Hj. apply Hext; set_solver.
  - eapply shaped_ext; [done|]. intros j Hj. apply Hext; set_solver.
Qed.

Lemma shaped_lookup h par t i :
  shaped h par t → i ∈ ids t → is_Some (h !! i).
Proof.
  revert par. induction t as [|l IHl j k r IHr]; intros par; simpl.
  - set_solver.
  - intros (Hj & Hl & Hr) Hin.
    apply elem_of_app in Hin as [Hin|Hin]; [by eapply IHl|].
    apply elem_of_cons in Hin as [->|Hin]; [by eexists|by eapply IHr].
Qed.

Lemma height_le_ids t : (height t ≤ length (ids t))%nat.
Proof.
  induction t as [|l IHl i k r IHr]; simpl; [lia|].
  rewrite length_app. simpl. lia.
Qed.

Lemma shaped_height h par t :
  shaped h par t → NoDup (ids t) → (height t ≤ length h)%nat.
Proof.
  intros Hs Hnd.
  assert (ids t ⊆+ seq 0 (length h)) as Hsub.
  { apply NoDup_submseteq; [done|]. intros i Hi.
    apply elem_of_seq. split; [lia|]. simpl.
    apply lookup_lt_is_Some. by eapply shaped_lookup. }
  apply submseteq_length in Hsub. rewrite length_seq in Hsub.
  pose proof (height_le_ids t). lia.
Qed.

(** ** The comparison walk *)

Lemma descend_plug x t : plug (descend x t).1 (descend x t).2 = t.
Proof.
  induction t as [|l IHl i k r IHr]; simpl; [done|].
  destruct (x =? k); [done|]. destruct (x <? k).
  - destruct (descend x l) as [c s]. simpl in *. rewrite plug_app. simpl.
    by rewrite IHl.
  - destruct (descend x r) as [c s]. simpl in *. rewrite plug_app. simpl.
    by rewrite IHr.
Qed.

Lemma descend_hit x t :
  (descend x t).2 = Leaf ∨ ∃ l i r, (descend x t).2 = Node l i x r.
Proof.
  induction t as [|l IHl i k r IHr]; simpl; [by left|].
  destruct (Z.eqb_spec x k) as [->|Hne]; [right; by eauto|].
  destruct (x <? k).
  - by destruct (descend x l).
  - by destruct (descend x r).
Qed.

Lemma descend_on_path x t : Forall (on_path x) (descend x t).1.
Proof.
  induction t as [|l IHl i k r IHr]; simpl; [constructor|].
  destruct (Z.eqb_spec x k) as [->|Hne]; [constructor|].
  destruct (Z.ltb_spec x k).
  - destruct (descend x l) as [c s]. simpl in *.
    apply Forall_app. split; [done|]. by repeat constructor.
  - destruct (descend x r) as [c s]. simpl in *.
    apply Forall_app. split; [done|]. repeat constructor. simpl. lia.
Qed.

Lemma leftmost_step ll li lk lr i k r :
  leftmost (Node (Node ll li lk lr) i k r)
  = ((leftmost (Node ll li lk lr)).1 ++ [InLeft i k r],
     (leftmost (Node ll li lk lr)).2).
Proof.
  change (leftmost (Node (Node ll li lk lr) i k r))
    with (let '(c, s) := leftmost (Node ll li lk lr) in
          (c ++ [InLeft i k r], s)).
  by destruct (leftmost (Node ll li lk lr)).
Qed.

Lemma leftmost_plug t : plug (leftmost t).1 (leftmost t).2 = t.
Proof.
  induction t as [|l IHl i k r IHr]; simpl; [done|].
  destruct l as [|ll li lk lr]; [done|].
  destruct (leftmost (Node ll li lk lr)) as [c s]. simpl in *.
  rewrite plug_app. simpl. by rewrite IHl.
Qed.

Lemma leftmost_node t :
  t ≠ Leaf → ∃ y ky ry, (leftmost t).2 = Node Leaf y ky ry.
Proof.
  induction t as [|l IHl i k r IHr]; [done|]. intros _. simpl.
  destruct l as [|ll li lk lr]; [by eauto|].
  destruct (leftmost (Node ll li lk lr)) as [c s]. simpl in *.
  by apply IHl.
Qed.

Lemma leftmost_before t : before (leftmost t).1 = [].
Proof.
  induction t as [|l IHl i k r IHr]; simpl; [done|].
  destruct l as [|ll li lk lr]; [done|].
  destruct (leftmost (Node ll li lk lr)) as [c s]. simpl in *.
  clear IHr. induction c as [|[]]; simpl in *; [done|by auto|].
  by destruct (before c), (elements l).
Qed.

Section loops.
Context (b : BST).

Lemma load_shaped par l i k r :
  shaped (heap b) par (Node l i k r) →
  load b (Some i) = Ok (mkNode k (ptr l) (ptr r) par).
Proof. simpl. intros (-> & _). done. Qed.

Lemma search_loop_spec x t : ∀ fuel par path,
  shaped (heap b) par t → (height t ≤ fuel)%nat →
  search_loop fuel b x (ptr t) path
  = Ok (path ++ trail x t, ptr (descend x t).2).
Proof.
  induction t as [|l IHl i k r IHr]; intros fuel par path Hs Hf.
  - destruct fuel; simpl; by rewrite app_nil_r.
  - destruct fuel as [|fuel]; [simpl in Hf; lia|].
    cbn [ptr search_loop]. rewrite (load_shaped _ _ _ _ _ Hs).
    destruct Hs as (_ & Hl & Hr). simpl in Hf. simpl.
    destruct (x =? k); [done|]. destruct (x <? k).
    + erewrite IHl; [|done|lia]. rewrite <- app_assoc. simpl.
      by destruct (descend x l).
    + erewrite IHr; [|done|lia]. rewrite <- app_assoc. simpl.
      by destruct (descend x r).
Qed.

Lemma insert_loop_spec x t : ∀ fuel par,
  shaped (heap b) par t → (height t ≤ fuel)%nat →
  insert_loop fuel b x (ptr t) par
  = Ok (match (descend x t).2 with
        | Leaf => inr (hole_parent par (descend x t).1)
        | Node _ i _ _ => inl i
        end).
Proof.
  induction t as [|l IHl i k r IHr]; intros fuel par Hs Hf.
  - by destruct fuel.
  - destruct fuel as [|fuel]; [simpl in Hf; lia|].
    cbn [ptr insert_loop]. rewrite (load_shaped _ _ _ _ _ Hs).
    destruct Hs as (_ & Hl & Hr). simpl in Hf. simpl.
    destruct (x =? k); [done|]. destruct (x <? k).
    + erewrite IHl; [|done|lia].
      destruct (descend x l) as [c s]. simpl.
      by rewrite hole_parent_snoc.
    + erewrite IHr; [|done|lia].
      destruct (descend x r) as [c s]. simpl.
      by rewrite hole_parent_snoc.
Qed.

Lemma minimum_loop_spec t : ∀ fuel par,
  t ≠ Leaf →
  shaped (heap b) par t → (height t ≤ fuel)%nat →
  minimum_loop fuel b (ptr t) = Ok (ptr (leftmost t).2).
Proof.
  induction t as [|l IHl i k r IHr]; intros fuel par Hne Hs Hf; [done|].
  assert (load b (Some i) = Ok (mkNode k (ptr l) (ptr r) par)) as Hld
    by by apply load_shaped.
  destruct Hs as (_ & Hl & Hr). simpl in Hf.
  destruct l as [|ll li lk lr].
  - destruct fuel; cbn [minimum_loop ptr]; rewrite Hld; done.
  - destruct fuel as [|fuel]; [lia|].
    cbn [minimum_loop ptr]. rewrite Hld. cbn [mbind result_bind left ptr].
    change (Some li) with (ptr (Node ll li lk lr)).
    rewrite (IHl fuel (Some i)); [|done|done|lia].
    rewrite (leftmost_step ll li lk lr i k r).
    by destruct (leftmost (Node ll li lk lr)).
Qed.
End loops.

(** ** Strictly ascending key lists *)

Lemma sorted_mid_remove (l1 l2 : list Z) x :
  StronglySorted Z.lt (l1 ++ x :: l2) → StronglySorted Z.lt (l1 ++ l2).
Proof.
  rewrite !StronglySorted_app, StronglySorted_cons.
  intros (H12 & H1 & _ & H2). split_and!; [|done..].
  intros a c Ha Hc. apply H12; [done|]. by right.
Qed.

Lemma sorted_mid_insert (l1 l2 : list Z) x :
  StronglySorted Z.lt (l1 ++ l2) →
  Forall (fun a => a < x) l1 → Forall (fun a => x < a) l2 →
  StronglySorted Z.lt (l1 ++ x :: l2).
Proof.
  rewrite !StronglySorted_app, StronglySorted_cons, !Forall_forall.
  intros (H12 & H1 & H2) Hlo Hhi. split_and!; [|done..].
  intros a c Ha Hc. apply elem_of_cons in Hc as [->|Hc]; [by apply Hlo|].
  by apply H12.
Qed.

Lemma sorted_mid_absent (l1 l2 : list Z) x :
  StronglySorted Z.lt (l1 ++ x :: l2) → x ∉ l1 ++ l2.
Proof.
  rewrite StronglySorted_app, StronglySorted_cons, Forall_forall.
  intros (H12 & _ & H2 & _) Hin. apply elem_of_app in Hin as [Hin|Hin].
  - assert (x < x); [|lia]. apply H12; [done|by left].
  - specialize (H2 x Hin). lia.
Qed.

Lemma sorted_NoDup (l : list Z) : StronglySorted Z.lt l → NoDup l.
Proof.
  induction 1 as [|a l _ IH Hall]; constructor; [|done].
  intros Hin. rewrite Forall_forall in Hall. specialize (Hall a Hin). lia.
Qed.

Lemma on_path_bounds x c :
  Forall (on_path x) c →
  StronglySorted Z.lt (before c ++ after c) →
  Forall (fun a => a < x) (before c) ∧ Forall (fun a => x < a) (after c).
Proof.
  induction c as [|[i k r|l i k] c IH]; simpl; [by auto|..].
  - intros Hp Hs. apply Forall_cons in Hp as [Hxk Hp]. simpl in Hxk.
    pose proof Hs as Hs'. apply sorted_mid_remove in Hs'.
    apply StronglySorted_app in Hs as (_ & _ & Hs).
    apply StronglySorted_cons in Hs as [Hk Hs].
    destruct IH as [IH1 IH2]; [done| |].
    { rewrite StronglySorted_app in *.
      destruct Hs' as (H12 & H1 & H2).
      apply StronglySorted_app in H2 as (_ & _ & H2).
      split_and!; [|done..]. intros a c' Ha Hc. apply H12; [done|].
      apply elem_of_app. by right. }
    split; [done|]. constructor; [done|].
    eapply Forall_impl; [exact Hk|]. simpl. intros; lia.
  - intros Hp Hs. apply Forall_cons in Hp as [Hxk Hp]. simpl in Hxk.
    rewrite <- !app_assoc in Hs.
    destruct IH as [IH1 IH2]; [done| |].
    { rewrite StronglySorted_app in *.
      destruct Hs as (H12 & H1 & H2).
      apply StronglySorted_app in H2 as (_ & _ & H2).
      apply StronglySorted_app in H2 as (_ & _ & H2).
      split_and!; [|done..]. intros a c' Ha Hc. apply H12; [done|].
      apply elem_of_app. right. apply elem_of_app. by right. }
    split; [|done]. rewrite !Forall_app. split_and!; [done| |].
    + apply StronglySorted_app in Hs as (_ & _ & Hs).
      apply StronglySorted_app in Hs as (Hlk & _ & _).
      apply Forall_forall. intros a Ha.
      assert (a < k); [|lia]. apply Hlk; [done|]. apply elem_of_app. left. by left.
    + by repeat constructor.
Qed.

Lemma descend_absent x t :
  StronglySorted Z.lt (elements t) →
  (descend x t).2 = Leaf → x ∉ elements t.
Proof.
  intros Hs Hleaf. pose proof (descend_plug x t) as Hp.
  rewrite Hleaf in Hp. rewrite <- Hp, elements_plug in Hs |- *.
  simpl in *.
  destruct (on_path_bounds x _ (descend_on_path x t) Hs) as [Hlo Hhi].
  rewrite Forall_forall in Hlo, Hhi. intros Hin.
  apply elem_of_app in Hin as [Hin|Hin].
  - specialize (Hlo _ Hin). lia.
  - specialize (Hhi _ Hin). lia.
Qed.

Lemma descend_present x t l i r :
  (descend x t).2 = Node l i x r → x ∈ elements t.
Proof.
  intros Hnode. pose proof (descend_plug x t) as Hp.
  rewrite Hnode in Hp. rewrite <- Hp, elements_plug. simpl.
  set_solver.
Qed.

Lemma descend_found x t :
  StronglySorted Z.lt (elements t) →
  x ∈ elements t → ∃ l i r, (descend x t).2 = Node l i x r.
Proof.
  intros Hs Hin. destruct (descend_hit x t) as [Hleaf|?]; [|done].
  by apply descend_absent in Hleaf.
Qed.

(** ** Store primitives *)

Lemma load_Some b i n : heap b !! i = Some n → load b (Some i) = Ok n.
Proof. unfold load. by intros ->. Qed.

Lemma set_left_Some b i n v :
  heap b !! i = Some n →
  set_left b (Some i) v = Ok (store b i (mkNode (key n) v (right n) (parent n))).
Proof. unfold set_left, load. by intros ->. Qed.

Lemma set_right_Some b i n v :
  heap b !! i = Some n →
  set_right b (Some i) v = Ok (store b i (mkNode (key n) (left n) v (parent n))).
Proof. unfold set_right, load. by intros ->. Qed.

Lemma set_parent_Some b i n v :
  heap b !! i = Some n →
  set_parent b (Some i) v = Ok (store b i (mkNode (key n) (left n) (right n) v)).
Proof. unfold set_parent, load. by intros ->. Qed.

Lemma lookup_store_eq b i n m :
  heap b !! i = Some m → heap (store b i n) !! i = Some n.
Proof. intros H. simpl. apply list_lookup_insert_eq. by eapply lookup_lt_Some. Qed.

Lemma lookup_store_ne b i j n :
  i ≠ j → heap (store b i n) !! j = heap b !! j.
Proof. intros H. simpl. by apply list_lookup_insert_ne. Qed.

Lemma length_store b i n : length (heap (store b i n)) = length (heap b).
Proof. simpl. apply length_insert. Qed.

Arguments load : simpl never.
Arguments set_left : simpl never.
Arguments set_right : simpl never.
Arguments set_parent : simpl never.
Arguments store : simpl never.

Lemma ok_bind {A B} (a : A) (k : A → result B) : (Ok a ≫= k) = k a.
Proof. done. Qed.

Lemma represents_fuel b t : represents b t → (height t ≤ length (heap b))%nat.
Proof. intros [_ Hs Hnd _]. by eapply shaped_height. Qed.

(** ** [insert] *)

Lemma insert_dup b t x l i r :
  represents b t → (descend x t).2 = Node l i x r →
  insert b x = Ok ((None, Some i), b).
Proof.
  intros Hrep Hnode. unfold insert. rewrite (rep_root _ _ Hrep).
  rewrite (insert_loop_spec b x t _ None (rep_shaped _ _ Hrep)
             (represents_fuel _ _ Hrep)).
  by rewrite Hnode.
Qed.

Lemma insert_fresh b t x :
  represents b t → (descend x t).2 = Leaf →
  ∃ b', insert b x
        = Ok ((Some (length (heap b)), hole_parent None (descend x t).1), b')
      ∧ represents b' (insert_tree (length (heap b)) x t)
      ∧ heap b' !! length (heap b)
        = Some (mkNode x None None (hole_parent None (descend x t).1))
      ∧ length (heap b') = S (length (heap b)).
Proof.
  intros Hrep Hleaf. unfold insert, insert_tree.
  rewrite (rep_root _ _ Hrep).
  rewrite (insert_loop_spec b x t _ None (rep_shaped _ _ Hrep)
             (represents_fuel _ _ Hrep)).
  pose proof (descend_plug x t) as Hplug.
  pose proof (descend_on_path x t) as Hpath.
  destruct (descend x t) as [c s]. simpl in Hleaf, Hplug, Hpath. subst s.
  destruct Hrep as [Hroot Hsh Hnd Hso]. subst t.
  rewrite ok_bind. cbn [fst snd alloc]. set (z := length (heap b)).
  apply shaped_plug in Hsh as [Hctx _]. cbn [ptr] in Hctx.
  rewrite ids_plug in Hnd. cbn [ids app] in Hnd.
  rewrite elements_plug in Hso. cbn [elements app] in Hso.
  destruct (on_path_bounds x c Hpath Hso) as [Hlo Hhi].
  assert (∀ j, j ∈ ctx_ids c → (j < z)%nat) as Hlt.
  { intros j Hj. apply lookup_lt_is_Some.
    eapply (shaped_lookup _ None (plug c Leaf)).
    - apply shaped_plug. by split.
    - rewrite ids_plug. done. }
  assert (StronglySorted Z.lt (elements (plug c (Node Leaf z x Leaf)))) as Hso'.
  { rewrite elements_plug. cbn [elements app].
    by apply sorted_mid_insert. }
  assert (NoDup (ids (plug c (Node Leaf z x Leaf)))) as Hnd'.
  { rewrite ids_plug. cbn [ids app]. apply NoDup_cons. split; [|done].
    intros Hz. apply Hlt in Hz. lia. }
  destruct c as [|f c].
  - simpl. eexists. split; [done|]. split_and!; [constructor; simpl; try done| |].
    + split_and!; [|done..]. unfold z. by rewrite lookup_app_r, Nat.sub_diag by lia.
    + simpl. unfold z. by rewrite lookup_app_r, Nat.sub_diag by lia.
    + simpl. rewrite length_app. simpl. lia.
  - cbn [hole_parent].
    destruct Hctx as (Hf & Hsib & Hctx).
    set (b1 := mkBST (heap b ++ [mkNode x None None (Some (frame_id f))]) (root b)).
    assert (heap b1 !! frame_id f
            = Some (frame_node f None (hole_parent None c))) as Hf1.
    { simpl. by apply lookup_app_l_Some. }
    assert (heap b1 !! z = Some (mkNode x None None (Some (frame_id f)))) as Hz1.
    { simpl. unfold z. by rewrite lookup_app_r, Nat.sub_diag by lia. }
    assert (frame_id f ≠ z) as Hfz.
    { assert (frame_id f < z)%nat; [|lia]. apply Hlt. simpl. by left. }
    rewrite (load_Some _ _ _ Hf1), ok_bind. cbv beta.
    apply Forall_cons in Hpath as [Hxf Hpath].
    match goal with |- ∃ _, ?e ≫= _ = _ ∧ _ =>
      assert (∃ b2, e = Ok b2 ∧ root b2 = root b
        ∧ heap b2 = <[frame_id f := frame_node f (Some z) (hole_parent None c)]>
                    (heap b1)) as (b2 & -> & Hr2 & Hh2)
    end.
    { destruct f as [i k r|l i k]; simpl in Hxf |- *.
      - destruct (Z.ltb_spec x k); [|lia].
        rewrite (set_left_Some _ _ _ _ Hf1). by eexists.
      - destruct (Z.ltb_spec x k); [lia|].
        rewrite (set_right_Some _ _ _ _ Hf1). by eexists. }
    rewrite ok_bind. eexists. split; [done|].
    assert (length (heap b2) = S z) as Hlen.
    { rewrite Hh2, length_insert. simpl. rewrite length_app. simpl. lia. }
    split_and!; [constructor; try done| |done].
    + rewrite Hr2, Hroot. apply ptr_plug_cons.
    + apply shaped_plug. split.
      * eapply (shaped_ctx_relink (heap b) _ None f c None).
        -- simpl. done.
        -- exact Hnd.
        -- rewrite Hh2. apply list_lookup_insert_eq.
           by eapply lookup_lt_Some.
        -- intros j Hj Hne. rewrite Hh2, list_lookup_insert_ne by done.
           simpl. apply lookup_app_l. by apply Hlt.
      * cbn [hole_parent shaped ptr]. split_and!; [|done..].
        by rewrite Hh2, list_lookup_insert_ne.
    + by rewrite Hh2, list_lookup_insert_ne.
Qed.

(** ** [transplant] *)

Lemma ptr_in_ids t i : ptr t = Some i → i ∈ ids t.
Proof. destruct t; simpl; [done|]. intros [= ->]. set_solver. Qed.

Arguments is_left_child : simpl never.

Lemma is_left_child_frame b f c u nu hp :
  heap b !! u = Some nu → parent nu = Some (frame_id f) →
  heap b !! frame_id f = Some (frame_node f (Some u) hp) →
  NoDup (u :: ctx_ids (f :: c)) →
  is_left_child b (Some u)
  = Ok (match f with InLeft _ _ _ => true | InRight _ _ _ => false end).
Proof.
  intros Hu Hpar Hf Hnd. unfold is_left_child.
  rewrite (load_Some _ _ _ Hu), ok_bind, Hpar, (load_Some _ _ _ Hf), ok_bind.
  destruct f as [i k r|l i k]; simpl.
  - by rewrite bool_decide_eq_true_2.
  - rewrite bool_decide_eq_false_2; [done|].
    intros Hl%ptr_in_ids. apply NoDup_cons in Hnd as [Hnin _].
    apply Hnin. simpl. set_solver.
Qed.

Lemma transplant_spec b c u nu v :
  heap b !! u = Some nu → parent nu = hole_parent None c →
  shaped_ctx (heap b) None c (Some u) →
  NoDup (u :: ctx_ids c) →
  (∀ vi, v = Some vi → is_Some (heap b !! vi) ∧ vi ∉ ctx_ids c) →
  ∃ b', transplant b (Some u) v = Ok b'
    ∧ root b' = (match c with [] => v | _ => root b end)
    ∧ length (heap b') = length (heap b)
    ∧ shaped_ctx (heap b') None c v
    ∧ (∀ j, Some j ≠ hole_parent None c → Some j ≠ v →
         heap b' !! j = heap b !! j)
    ∧ (∀ vi nv, v = Some vi → heap b !! vi = Some nv →
         heap b' !! vi
         = Some (mkNode (key nv) (left nv) (right nv) (hole_parent None c))).
Proof.
  intros Hu Hpar Hctx Hnd Hv. unfold transplant.
  rewrite (load_Some _ _ _ Hu), ok_bind, Hpar.
  match goal with |- ∃ _, ?e ≫= _ = _ ∧ _ =>
    assert (∃ b1, e = Ok b1
      ∧ root b1 = (match c with [] => v | _ => root b end)
      ∧ heap b1 = match c with
                  | [] => heap b
                  | f :: c' =>
                      <[frame_id f := frame_node f v (hole_parent None c')]>
                        (heap b)
                  end) as (b1 & -> & Hr1 & Hh1)
  end.
  { destruct c as [|f c']; [by eexists|]. cbn [hole_parent].
    destruct Hctx as (Hf & _).
    rewrite (is_left_child_frame b f c' u nu _ Hu Hpar Hf Hnd), ok_bind.
    destruct f as [i k r|l i k]; cbn [frame_id] in *.
    - rewrite (set_left_Some _ _ _ _ Hf). by eexists.
    - rewrite (set_right_Some _ _ _ _ Hf). by eexists. }
  rewrite ok_bind.
  assert (heap b1 !! u = Some nu) as Hu1.
  { rewrite Hh1. destruct c as [|f c']; [done|].
    rewrite list_lookup_insert_ne; [done|].
    apply NoDup_cons in Hnd as [Hnin _]. simpl in Hnin. set_solver. }
  assert (length (heap b1) = length (heap b)) as Hlen1.
  { rewrite Hh1. destruct c; [done|apply length_insert]. }
  assert (∀ j, Some j ≠ hole_parent None c → heap b1 !! j = heap b !! j)
    as Hframe1.
  { intros j Hj. rewrite Hh1. destruct c as [|f c']; [done|].
    apply list_lookup_insert_ne. simpl in Hj. congruence. }
  assert (∀ hp, (∀ j, j ∈ ctx_ids c → hp !! j = heap b1 !! j) →
            shaped_ctx hp None c v) as Hctx1.
  { intros hp Hhp. destruct c as [|f c']; [done|].
    apply NoDup_cons in Hnd as [_ Hnd].
    eapply shaped_ctx_relink; [exact Hctx|exact Hnd| |].
    - rewrite Hhp by (simpl; set_solver). rewrite Hh1.
      destruct Hctx as (Hf & _).
      apply list_lookup_insert_eq. by eapply lookup_lt_Some.
    - intros j Hj Hne. rewrite Hhp by done. rewrite Hh1.
      by apply list_lookup_insert_ne. }
  destruct v as [vi|].
  - destruct (Hv vi eq_refl) as [[nv Hnv] Hvin].
    assert (Some vi ≠ hole_parent None c) as Hvp.
    { destruct c as [|f c']; [done|]. simpl. intros [= ->].
      apply Hvin. simpl. set_solver. }
    assert (heap b1 !! vi = Some nv) as Hnv1 by by rewrite Hframe1.
    rewrite (load_Some _ _ _ Hu1), ok_bind.
    rewrite (set_parent_Some _ _ _ _ Hnv1). eexists. split; [done|].
    split_and!.
    + done.
    + by rewrite length_store.
    + apply Hctx1. intros j Hj. apply lookup_store_ne. set_solver.
    + intros j Hj Hjv. rewrite lookup_store_ne by congruence.
      by apply Hframe1.
    + intros ? nv' [= <-] Hnv'. rewrite Hnv in Hnv'. injection Hnv' as <-.
      rewrite Hpar. by eapply lookup_store_eq.
  - eexists. split; [done|]. split_and!; [done|done|by apply Hctx1| |done].
    intros j Hj _. by apply Hframe1.
Qed.

(** ** [delete] *)

Lemma elem_of_ids_plug j c t : j ∈ ids (plug c t) ↔ j ∈ ids t ∨ j ∈ ctx_ids c.
Proof. rewrite ids_plug. apply elem_of_app. Qed.

Lemma NoDup_ids_plug c t :
  NoDup (ids (plug c t)) ↔
    NoDup (ids t) ∧ (∀ j, j ∈ ids t → j ∉ ctx_ids c) ∧ NoDup (ctx_ids c).
Proof. rewrite ids_plug. apply NoDup_app. Qed.

Lemma NoDup_ids_node l i k r :
  NoDup (ids (Node l i k r)) ↔
    NoDup (ids l) ∧ NoDup (ids r) ∧ (i ∉ ids l) ∧ (i ∉ ids r)
    ∧ (∀ j, j ∈ ids l → j ∉ ids r).
Proof.
  simpl. rewrite NoDup_app, NoDup_cons. set_solver.
Qed.

Lemma plug_cons_node f c t : ∃ a i k d, plug (f :: c) t = Node a i k d.
Proof.
  revert f t. induction c as [|g c IH]; intros f t.
  - destruct f; simpl; eauto.
  - apply (IH g (fill f t)).
Qed.

Lemma delete_absent b t x :
  represents b t → (descend x t).2 = Leaf → delete b x = Ok (None, b).
Proof.
  intros Hrep Hleaf. unfold delete, search. rewrite (rep_root _ _ Hrep).
  rewrite (search_loop_spec b x t _ None [] (rep_shaped _ _ Hrep)
             (represents_fuel _ _ Hrep)).
  by rewrite Hleaf.
Qed.

Section surgery.
Context (b : BST) (c : list frame) (z : ref) (nz : BSTNode).
Hypothesis Hz : heap b !! z = Some nz.
Hypothesis Hzpar : parent nz = hole_parent None c.
Hypothesis Hctx : shaped_ctx (heap b) None c (Some z).
Hypothesis Hnd : NoDup (z :: ctx_ids c).

(** Cases 1 and 2: a child subtree of [z] takes the place of [z]. *)
Lemma transplant_child s pv :
  shaped (heap b) pv s → NoDup (ids s) →
  (∀ j, j ∈ ids s → j ∉ z :: ctx_ids c) →
  ∃ b', transplant b (Some z) (ptr s) = Ok b'
    ∧ root b' = (match c with [] => ptr s | _ => root b end)
    ∧ length (heap b') = length (heap b)
    ∧ shaped_ctx (heap b') None c (ptr s)
    ∧ shaped (heap b') (hole_parent None c) s
    ∧ (∀ j, Some j ≠ hole_parent None c → Some j ≠ ptr s →
         heap b' !! j = heap b !! j).
Proof.
  intros Hs Hnds Hdisj.
  destruct (transplant_spec b c z nz (ptr s) Hz Hzpar Hctx Hnd)
    as (b' & Hb' & Hroot & Hlen & Hctx' & Hframe & Hv).
  { intros vi Hvi%ptr_in_ids. split; [by eapply shaped_lookup|].
    set_solver. }
  exists b'. split_and!; [done..| |done].
  destruct s as [|sl si sk sr]; [done|].
  eapply shaped_reparent; [exact Hs| |].
  - destruct Hs as (Hsi & _). by rewrite (Hv si _ eq_refl Hsi).
  - intros j Hj. apply NoDup_ids_node in Hnds as (_ & _ & Hil & Hir & _).
    apply Hframe.
    + assert (j ∉ z :: ctx_ids c) as Hjc by (apply Hdisj; simpl; set_solver).
      destruct c as [|f c']; [done|]. simpl in *. set_solver.
    + simpl. set_solver.
Qed.
End surgery.

(** Case 3, second half: the successor [y], already holding the right
    subtree [r'], takes the place of [z] and adopts the left subtree. *)
Lemma replace_spec (b1 : BST) c l r' (z y : ref) x ky rz py :
  heap b1 !! z = Some (mkNode x (ptr l) rz (hole_parent None c)) →
  heap b1 !! y = Some (mkNode ky None (ptr r') py) →
  shaped_ctx (heap b1) None c (Some z) →
  shaped (heap b1) (Some z) l → shaped (heap b1) (Some y) r' →
  l ≠ Leaf →
  NoDup (z :: ids (plug c (Node l y ky r'))) →
  ∃ b', (b4 ← transplant b1 (Some z) (Some y);
         nz4 ← load b4 (Some z);
         b5 ← set_left b4 (Some y) (left nz4);
         ny5 ← load b5 (Some y);
         match left ny5 with
         | None => Ok b5
         | Some _ => set_parent b5 (left ny5) (Some y)
         end) = Ok b'
    ∧ root b' = (match c with [] => Some y | _ => root b1 end)
    ∧ length (heap b') = length (heap b1)
    ∧ shaped (heap b') None (plug c (Node l y ky r')).
Proof.
  intros Hz Hy Hctx Hl Hr' Hne Hnd.
  apply NoDup_cons in Hnd as [Hzt Hnd].
  rewrite elem_of_ids_plug in Hzt.
  apply NoDup_ids_plug in Hnd as (Hndn & Hdisj & Hndc).
  pose proof Hndn as Hndn'.
  apply NoDup_ids_node in Hndn' as (Hndl & Hndr & Hyl & Hyr & Hlr).
  destruct (transplant_spec b1 c z _ (Some y) Hz eq_refl Hctx)
    as (b4 & -> & Hroot4 & Hlen4 & Hctx4 & Hframe4 & Hy4).
  { apply NoDup_cons. split; [|done]. set_solver. }
  { intros ? [= <-]. split; [by eexists|]. apply Hdisj. simpl. set_solver. }
  specialize (Hy4 y _ eq_refl Hy). cbn [key left right] in Hy4.
  assert (∀ j, j ∈ ids l ++ ids r' ++ [z] → heap b4 !! j = heap b1 !! j)
    as Hsame4.
  { intros j Hj. apply Hframe4.
    - destruct c as [|f c']; [done|]. simpl. intros [= ->].
      simpl in Hzt, Hdisj. set_solver.
    - intros [= ->]. set_solver. }
  rewrite ok_bind.
  assert (heap b4 !! z = Some (mkNode x (ptr l) rz (hole_parent None c))) as Hz4.
  { rewrite Hsame4; [done|]. set_solver. }
  rewrite (load_Some _ _ _ Hz4), ok_bind. cbn [left].
  rewrite (set_left_Some _ _ _ _ Hy4), ok_bind. cbn [key left right parent].
  set (b5 := store b4 y _).
  assert (heap b5 !! y
          = Some (mkNode ky (ptr l) (ptr r') (hole_parent None c))) as Hy5
    by by eapply lookup_store_eq.
  rewrite (load_Some _ _ _ Hy5), ok_bind. cbn [left].
  destruct l as [|ll li kl lr]; [done|]. cbn [ptr] in *.
  assert (li ≠ y) as Hliy by set_solver.
  assert (heap b5 !! li = Some (mkNode kl (ptr ll) (ptr lr) (Some z))) as Hli5.
  { unfold b5. rewrite lookup_store_ne by done. rewrite Hsame4 by set_solver.
    by destruct Hl as (? & _). }
  rewrite (set_parent_Some _ _ _ _ Hli5). cbn [key left right].
  set (b6 := store b5 li _).
  assert (∀ j, j ≠ li → j ≠ y → heap b6 !! j = heap b4 !! j) as Hsame6.
  { intros j Hjl Hjy. unfold b6, b5. by rewrite !lookup_store_ne. }
  exists b6. split; [done|]. split_and!.
  - done.
  - unfold b6, b5. by rewrite !length_store.
  - apply shaped_plug. split.
    + cbn [ptr]. eapply shaped_ctx_ext; [exact Hctx4|].
      intros j Hj. apply Hsame6.
      * intros ->. eapply Hdisj; [|done]. simpl. set_solver.
      * intros ->. eapply Hdisj; [|done]. simpl. set_solver.
    + change (heap b6 !! y = Some (mkNode ky (Some li) (ptr r') (hole_parent None c))
              ∧ shaped (heap b6) (Some y) (Node ll li kl lr)
              ∧ shaped (heap b6) (Some y) r').
      split; [|split].
      * unfold b6. by rewrite lookup_store_ne.
      * eapply shaped_reparent; [exact Hl|by eapply lookup_store_eq|].
        apply NoDup_ids_node in Hndl as (_ & _ & Hill & Hilr & _).
        intros j Hj. rewrite Hsame6, Hsame4; simpl in *; set_solver.
      * eapply shaped_ext; [exact Hr'|].
        intros j Hj. rewrite Hsame6, Hsame4; simpl in *; set_solver.
Qed.

Lemma root_store b i n : root (store b i n) = root b.
Proof. done. Qed.

(** Case 3, first half: a successor [y] deeper in the right subtree is
    replaced by its own right child and then adopts the right subtree. *)
Lemma detach_spec (b : BST) c f cr1 l ry (z y : ref) x ky :
  shaped (heap b) None
    (plug c (Node l z x (plug (f :: cr1) (Node Leaf y ky ry)))) →
  NoDup (ids (plug c (Node l z x (plug (f :: cr1) (Node Leaf y ky ry))))) →
  ∃ b1 py,
    (b2 ← transplant b (Some y) (ptr ry);
     nz2 ← load b2 (Some z);
     b3 ← set_right b2 (Some y) (right nz2);
     ny3 ← load b3 (Some y);
     match right ny3 with
     | None => Ok b3
     | Some _ => set_parent b3 (right ny3) (Some y)
     end) = Ok b1
    ∧ root b1 = root b ∧ length (heap b1) = length (heap b)
    ∧ heap b1 !! z
      = Some (mkNode x (ptr l) (ptr (plug (f :: cr1) ry)) (hole_parent None c))
    ∧ heap b1 !! y = Some (mkNode ky None (ptr (plug (f :: cr1) ry)) py)
    ∧ shaped_ctx (heap b1) None c (Some z)
    ∧ shaped (heap b1) (Some z) l
    ∧ shaped (heap b1) (Some y) (plug (f :: cr1) ry).
Proof.
  set (cr := f :: cr1). set (cy := cr ++ InRight l z x :: c).
  assert (∀ s, plug c (Node l z x (plug cr s)) = plug cy s) as Heq.
  { intros s. unfold cy. by rewrite plug_app. }
  rewrite !Heq. intros Hsh Hnd.
  apply shaped_plug in Hsh as [Hctxy Hy]. cbn [ptr] in Hctxy.
  destruct Hy as (Hy & _ & Hry). cbn [ptr] in Hy.
  apply NoDup_ids_plug in Hnd as (Hndn & Hdisj & Hndc).
  cbn [ids app] in Hndn, Hdisj. apply NoDup_cons in Hndn as [Hyry Hndry].
  assert (ctx_ids cy = ctx_ids cr ++ z :: ids l ++ ctx_ids c) as Hcy.
  { unfold cy. by rewrite ctx_ids_app. }
  assert (frame_id f ∈ ctx_ids cr) as Hfcr by (simpl; set_solver).
  destruct (transplant_child b cy y _ Hy eq_refl Hctxy)
    with (s := ry) (pv := Some y)
    as (b2 & -> & Hroot2 & Hlen2 & Hctx2 & Hry2 & Hframe2); [|done..| |].
  { apply NoDup_cons. split; [|done]. apply Hdisj. set_solver. }
  { intros j Hj. apply not_elem_of_cons. split; [set_solver|].
    apply Hdisj. set_solver. }
  assert (shaped (heap b2) None (plug cy ry)) as Hsh2
    by (apply shaped_plug; by split).
  rewrite <- Heq in Hsh2. apply shaped_plug in Hsh2 as [Hctx2c Hn2].
  destruct Hn2 as (Hz2 & Hl2 & Hr2).
  rewrite ok_bind, (load_Some _ _ _ Hz2), ok_bind. cbn [right].
  assert (heap b2 !! y
          = Some (mkNode ky None (ptr ry) (hole_parent None cy))) as Hy2.
  { rewrite Hframe2; [done| |].
    - simpl. intros [= ->]. apply (Hdisj (frame_id f)); [set_solver|].
      rewrite Hcy. set_solver.
    - intros Hp. symmetry in Hp. apply ptr_in_ids in Hp. done. }
  rewrite (set_right_Some _ _ _ _ Hy2), ok_bind. cbn [key left right parent].
  set (b3 := store b2 y _).
  assert (heap b3 !! y
          = Some (mkNode ky None (ptr (plug cr ry)) (hole_parent None cy)))
    as Hy3 by by eapply lookup_store_eq.
  rewrite (load_Some _ _ _ Hy3), ok_bind. cbn [right].
  assert (∀ j, j ∈ ids (plug cr ry) → j ∈ ids ry ∨ j ∈ ctx_ids cr) as Hinr'
    by (intros j; by rewrite elem_of_ids_plug).
  assert (NoDup (ids (plug cr ry))) as Hndr'.
  { apply NoDup_ids_plug. split_and!; [done| |].
    - intros j Hj. specialize (Hdisj j). rewrite Hcy in Hdisj. set_solver.
    - rewrite Hcy in Hndc. by apply NoDup_app in Hndc as (? & _). }
  assert (y ∉ ids (plug cr ry)) as Hyr'.
  { intros [?|?]%Hinr'; [done|]. apply (Hdisj y); [set_solver|].
    rewrite Hcy. set_solver. }
  assert (∀ j, j ∈ z :: ids l ++ ctx_ids c → j ∉ y :: ids (plug cr ry))
    as Hout.
  { intros j Hj Hj'. rewrite Hcy in Hndc, Hdisj.
    apply NoDup_app in Hndc as (_ & Hcrc & _).
    apply elem_of_cons in Hj' as [->|[?|?]%Hinr'].
    - apply (Hdisj y); set_solver.
    - apply (Hdisj j); set_solver.
    - by apply (Hcrc j). }
  destruct (plug_cons_node f cr1 ry) as (a & rt & krt & d & Hr'eq).
  fold cr in Hr'eq. rewrite Hr'eq in *. cbn [ptr].
  assert (rt ≠ y) as Hrty by (simpl in Hyr'; set_solver).
  pose proof Hr2 as (Hrt2 & _).
  assert (heap b3 !! rt
          = Some (mkNode krt (ptr a) (ptr d) (Some z))) as Hrt3.
  { unfold b3. by rewrite lookup_store_ne. }
  rewrite (set_parent_Some _ _ _ _ Hrt3). cbn [key left right].
  set (b4 := store b3 rt _).
  assert (∀ j, j ≠ rt → j ≠ y → heap b4 !! j = heap b2 !! j) as Hsame.
  { intros j ? ?. unfold b4, b3. by rewrite !lookup_store_ne. }
  assert (∀ j, j ∈ z :: ids l ++ ctx_ids c → heap b4 !! j = heap b2 !! j)
    as Hsame'.
  { intros j Hj. specialize (Hout j Hj). simpl in Hout.
    apply Hsame; set_solver. }
  exists b4, (hole_parent None cy). split; [done|]. split_and!.
  - done.
  - unfold b4, b3. by rewrite !length_store.
  - rewrite Hsame' by set_solver. done.
  - unfold b4. by rewrite lookup_store_ne.
  - eapply shaped_ctx_ext; [exact Hctx2c|].
    intros j Hj. apply Hsame'. set_solver.
  - eapply shaped_ext; [exact Hl2|].
    intros j Hj. apply Hsame'. set_solver.
  - eapply shaped_reparent; [exact Hr2|by eapply lookup_store_eq|].
    apply NoDup_ids_node in Hndr' as (_ & _ & Hia & Hid & _).
    intros j Hj. apply Hsame; simpl in Hyr'; set_solver.
Qed.

Lemma spliced_cases l r :
  (l = Leaf ∧ spliced l r = r)
  ∨ (l ≠ Leaf ∧ r = Leaf ∧ spliced l r = l)
  ∨ (l ≠ Leaf ∧ r ≠ Leaf ∧ ∃ cr y ky ry,
       leftmost r = (cr, Node Leaf y ky ry)
       ∧ r = plug cr (Node Leaf y ky ry)
       ∧ before cr = []
       ∧ spliced l r = Node l y ky (plug cr ry)).
Proof.
  destruct l as [|ll li kl lr]; [by left|]. right.
  destruct r as [|rl ri kr rr]; [by left|]. right.
  split; [done|]. split; [done|].
  pose proof (leftmost_plug (Node rl ri kr rr)) as Hp.
  pose proof (leftmost_before (Node rl ri kr rr)) as Hb.
  destruct (leftmost_node (Node rl ri kr rr)) as (y & ky & ry & Hn); [done|].
  unfold spliced.
  destruct (leftmost (Node rl ri kr rr)) as [cr m]. simpl in *. subst m.
  exists cr, y, ky, ry. by rewrite Hp.
Qed.

Lemma elements_spliced l r : elements (spliced l r) = elements l ++ elements r.
Proof.
  destruct (spliced_cases l r)
    as [[-> ->]|[(_ & -> & ->)|(_ & _ & cr & y & ky & ry & _ & -> & Hb & ->)]].
  - done.
  - by rewrite app_nil_r.
  - simpl. rewrite !elements_plug, Hb. done.
Qed.

Lemma ids_spliced l r : ids (spliced l r) ≡ₚ ids l ++ ids r.
Proof.
  destruct (spliced_cases l r)
    as [[-> ->]|[(_ & -> & ->)|(_ & _ & cr & y & ky & ry & _ & -> & Hb & ->)]].
  - done.
  - by rewrite app_nil_r.
  - simpl. rewrite !ids_plug. done.
Qed.

Lemma ids_plug_spliced c l z x r :
  ids (plug c (Node l z x r)) ≡ₚ z :: ids (plug c (spliced l r)).
Proof.
  rewrite !ids_plug, ids_spliced. simpl.
  rewrite <- !app_assoc. symmetry.
  apply (Permutation_middle (ids l) (ids r ++ ctx_ids c) z).
Qed.

Lemma elements_delete c l z x r :
  StronglySorted Z.lt (elements (plug c (Node l z x r))) →
  StronglySorted Z.lt (elements (plug c (spliced l r)))
  ∧ ∀ a, a ∈ elements (plug c (spliced l r))
         ↔ a ∈ elements (plug c (Node l z x r)) ∧ a ≠ x.
Proof.
  rewrite !elements_plug, elements_spliced. simpl.
  replace (before c ++ (elements l ++ x :: elements r) ++ after c)
    with ((before c ++ elements l) ++ x :: elements r ++ after c)
    by by rewrite <- !app_assoc.
  replace (before c ++ (elements l ++ elements r) ++ after c)
    with ((before c ++ elements l) ++ elements r ++ after c)
    by by rewrite <- !app_assoc.
  intros Hs. split; [by eapply sorted_mid_remove|].
  apply sorted_mid_absent in Hs. set_solver.
Qed.

Arguments transplant : simpl never.
Arguments minimum : simpl never.

Lemma minimum_spec b par t :
  t ≠ Leaf → shaped (heap b) par t → NoDup (ids t) →
  minimum b (ptr t) = Ok (ptr (leftmost t).2).
Proof.
  intros Hne Hs Hnd. unfold minimum.
  eapply minimum_loop_spec; [done..|]. by eapply shaped_height.
Qed.

Lemma delete_present b t x l z r :
  represents b t → (descend x t).2 = Node l z x r →
  ∃ b', delete b x = Ok (Some z, b')
    ∧ represents b' (delete_tree x t)
    ∧ length (heap b') = length (heap b).
Proof.
  intros Hrep Hnode. unfold delete, search, delete_tree.
  rewrite (rep_root _ _ Hrep).
  rewrite (search_loop_spec b x t _ None [] (rep_shaped _ _ Hrep)
             (represents_fuel _ _ Hrep)).
  pose proof (descend_plug x t) as Hplug.
  destruct (descend x t) as [c s]. simpl in Hnode, Hplug. subst s.
  destruct Hrep as [Hroot Hsh Hnd Hso]. subst t.
  rewrite ok_bind. cbn [fst snd ptr].
  pose proof Hsh as Hsh0. pose proof Hnd as Hnd0.
  apply shaped_plug in Hsh as [Hctx (Hz & Hl & Hr)]. cbn [ptr] in Hctx.
  rewrite (load_Some _ _ _ Hz), ok_bind. cbn [left right].
  apply NoDup_ids_plug in Hnd as (Hndn & Hdisj & Hndc).
  pose proof Hndn as Hndn'.
  apply NoDup_ids_node in Hndn' as (Hndl & Hndr & Hzl & Hzr & Hlr).
  assert (NoDup (z :: ctx_ids c)) as Hndz.
  { apply NoDup_cons. split; [|done]. apply Hdisj. simpl. set_solver. }
  match goal with |- ∃ _, ?e ≫= _ = _ ∧ _ =>
    assert (∃ b', e = Ok b'
      ∧ root b' = (match c with [] => ptr (spliced l r) | _ => root b end)
      ∧ length (heap b') = length (heap b)
      ∧ shaped (heap b') None (plug c (spliced l r)))
      as (b' & -> & Hroot' & Hlen' & Hsh')
  end.
  { destruct l as [|ll li kl lr].
    - cbn [ptr spliced].
      destruct (transplant_child b c z _ Hz eq_refl Hctx Hndz r (Some z))
        as (b' & Hb' & ? & ? & ? & ? & _); [done|done| |].
      { intros j Hj. apply not_elem_of_cons. split; [set_solver|].
        apply Hdisj. simpl. set_solver. }
      exists b'. split_and!; [done..|]. apply shaped_plug. by split.
    - destruct r as [|rl ri kr rr].
      + cbn [ptr spliced].
        destruct (transplant_child b c z _ Hz eq_refl Hctx Hndz
                    (Node ll li kl lr) (Some z))
          as (b' & Hb' & ? & ? & ? & ? & _); [done|done| |].
        { intros j Hj. apply not_elem_of_cons. split; [set_solver|].
          apply Hdisj. simpl. set_solver. }
        exists b'. split_and!; [done..|]. apply shaped_plug. by split.
      + destruct (spliced_cases (Node ll li kl lr) (Node rl ri kr rr))
          as [[? _]|[(_ & ? & _)|(_ & _ & cr & y & ky & ry & Hlm & Hreq & _ & Hspl)]];
          [done|done|].
        rewrite Hspl.
        assert (NoDup (z :: ids (plug c
                  (Node (Node ll li kl lr) y ky (plug cr ry))))) as Hnd1.
        { rewrite <- Hspl, <- ids_plug_spliced. done. }
        cbn [ptr].
        change (Some ri) with (ptr (Node rl ri kr rr)).
        rewrite (minimum_spec b (Some z) (Node rl ri kr rr) ltac:(done) Hr Hndr).
        rewrite Hlm, ok_bind.
        cbn [snd ptr].
        rewrite Hreq in Hr, Hsh0, Hnd0.
        pose proof Hr as Hr0.
        apply shaped_plug in Hr0 as [_ (Hy & _ & Hry)]. cbn [ptr] in Hy.
        rewrite (load_Some _ _ _ Hy), ok_bind. cbn [parent right].
        destruct cr as [|f cr1].
        * cbn [hole_parent]. rewrite bool_decide_eq_true_2 by done.
          rewrite ok_bind. cbn [plug] in *.
          eapply replace_spec; [exact Hz|exact Hy|done..].
        * cbn [hole_parent].
          rewrite bool_decide_eq_false_2.
          2:{ intros [= Hfz]. apply Hzr. rewrite Hreq.
              apply elem_of_ids_plug. right. rewrite <- Hfz. simpl.
              set_solver. }
          destruct (detach_spec b c f cr1 (Node ll li kl lr) ry z y x ky
                      Hsh0 Hnd0)
            as (b1 & py & -> & Hroot1 & Hlen1 & Hz1 & Hy1 & Hctx1 & Hl1 & Hr1).
          rewrite ok_bind.
          destruct (replace_spec b1 c (Node ll li kl lr) (plug (f :: cr1) ry)
                      z y x ky _ _ Hz1 Hy1 Hctx1 Hl1 Hr1 ltac:(done) Hnd1)
            as (b' & -> & Hroot' & Hlen' & Hsh').
          exists b'. split; [done|]. rewrite Hroot', Hlen', Hroot1, Hlen1.
          done. }
  rewrite ok_bind. exists b'. split; [done|]. split; [|done].
  destruct (elements_delete c l z x r Hso) as [Hso' _].
  constructor; [|done| |done].
  - rewrite Hroot'. destruct c as [|f c']; [done|].
    rewrite Hroot. apply ptr_plug_cons.
  - rewrite ids_plug_spliced in Hnd0. by apply NoDup_cons in Hnd0 as [_ ?].
Qed.

(** ** Traversals *)

Lemma inorder_dfs_spec b t : ∀ fuel par res,
  shaped (heap b) par t → (height t ≤ fuel)%nat →
  inorder_dfs fuel b (ptr t) res = Ok (res ++ elements t).
Proof.
  induction t as [|l IHl i k r IHr]; intros fuel par res Hs Hf.
  - destruct fuel; simpl; by rewrite app_nil_r.
  - destruct fuel as [|fuel]; [simpl in Hf; lia|].
    cbn [ptr inorder_dfs]. rewrite (load_shaped _ _ _ _ _ _ Hs), ok_bind.
    destruct Hs as (_ & Hl & Hr). simpl in Hf. cbn [left right key].
    rewrite (IHl fuel (Some i)), ok_bind; [|done|lia].
    rewrite (IHr fuel (Some i)); [|done|lia].
    simpl. by rewrite <- !app_assoc.
Qed.

Lemma nodes_dfs_spec b t : ∀ fuel par out,
  shaped (heap b) par t → (height t ≤ fuel)%nat →
  nodes_dfs fuel b (ptr t) out = Ok (out ++ ids t).
Proof.
  induction t as [|l IHl i k r IHr]; intros fuel par out Hs Hf.
  - destruct fuel; simpl; by rewrite app_nil_r.
  - destruct fuel as [|fuel]; [simpl in Hf; lia|].
    cbn [ptr nodes_dfs]. rewrite (load_shaped _ _ _ _ _ _ Hs), ok_bind.
    destruct Hs as (_ & Hl & Hr). simpl in Hf. cbn [left right key].
    rewrite (IHl fuel (Some i)), ok_bind; [|done|lia].
    rewrite (IHr fuel (Some i)); [|done|lia].
    simpl. by rewrite <- !app_assoc.
Qed.

Lemma depth_h_spec b t : ∀ fuel par,
  shaped (heap b) par t → (height t ≤ fuel)%nat →
  depth_h fuel b (ptr t) = Ok (height t).
Proof.
  induction t as [|l IHl i k r IHr]; intros fuel par Hs Hf.
  - by destruct fuel.
  - destruct fuel as [|fuel]; [simpl in Hf; lia|].
    cbn [ptr depth_h]. rewrite (load_shaped _ _ _ _ _ _ Hs), ok_bind.
    destruct Hs as (_ & Hl & Hr). simpl in Hf. cbn [left right key].
    rewrite (IHl fuel (Some i)), ok_bind; [|done|lia].
    rewrite (IHr fuel (Some i)), ok_bind; [|done|lia].
    done.
Qed.

Lemma inorder_spec b t : represents b t → inorder b = Ok (elements t).
Proof.
  intros Hrep. unfold inorder. rewrite (rep_root _ _ Hrep).
  by rewrite (inorder_dfs_spec b t _ None [] (rep_shaped _ _ Hrep)
                (represents_fuel _ _ Hrep)).
Qed.

Lemma nodes_spec b t : represents b t → nodes b = Ok (ids t).
Proof.
  intros Hrep. unfold nodes. rewrite (rep_root _ _ Hrep).
  by rewrite (nodes_dfs_spec b t _ None [] (rep_shaped _ _ Hrep)
                (represents_fuel _ _ Hrep)).
Qed.

Lemma depth_spec b t : represents b t → depth b = Ok (height t).
Proof.
  intros Hrep. unfold depth. rewrite (rep_root _ _ Hrep).
  by rewrite (depth_h_spec b t _ None (rep_shaped _ _ Hrep)
                (represents_fuel _ _ Hrep)).
Qed.

Lemma search_spec b t x :
  represents b t → search b x = Ok (trail x t, ptr (descend x t).2).
Proof.
  intros Hrep. unfold search. rewrite (rep_root _ _ Hrep).
  by rewrite (search_loop_spec b x t _ None [] (rep_shaped _ _ Hrep)
                (represents_fuel _ _ Hrep)).
Qed.

(** ** Whole operations against the abstract tree *)

Lemma represents_empty : represents empty Leaf.
Proof. by repeat constructor. Qed.

Lemma elements_insert_tree z x t a :
  a ∈ elements (insert_tree z x t) ↔ a = x ∨ a ∈ elements t.
Proof.
  unfold insert_tree. pose proof (descend_plug x t) as Hp.
  destruct (descend_hit x t) as [Hleaf|(l & i & r & Hnode)].
  - destruct (descend x t) as [c s]. simpl in *. subst s.
    rewrite <- Hp, !elements_plug. simpl. set_solver.
  - pose proof (descend_present _ _ _ _ _ Hnode).
    destruct (descend x t) as [c s]. simpl in *. subst s. set_solver.
Qed.

Lemma elements_delete_tree x t a :
  StronglySorted Z.lt (elements t) →
  a ∈ elements (delete_tree x t) ↔ a ∈ elements t ∧ a ≠ x.
Proof.
  intros Hso. unfold delete_tree. pose proof (descend_plug x t) as Hp.
  destruct (descend_hit x t) as [Hleaf|(l & i & r & Hnode)].
  - pose proof (descend_absent _ _ Hso Hleaf).
    destruct (descend x t) as [c s]. simpl in *. subst s. set_solver.
  - destruct (descend x t) as [c s]. simpl in *. subst s.
    rewrite <- Hp in Hso |- *. by apply elements_delete.
Qed.

Lemma insert_spec b t x :
  represents b t →
  ∃ res b', insert b x = Ok (res, b')
    ∧ represents b' (insert_tree (length (heap b)) x t).
Proof.
  intros Hrep. destruct (descend_hit x t) as [Hleaf|(l & i & r & Hnode)].
  - destruct (insert_fresh b t x Hrep Hleaf) as (b' & ? & ? & _).
    by exists (Some (length (heap b)), hole_parent None (descend x t).1), b'.
  - exists (None, Some i), b. split; [by eapply insert_dup|].
    unfold insert_tree. destruct (descend x t) as [c s]. simpl in *.
    by subst s.
Qed.

Lemma delete_spec b t x :
  represents b t →
  ∃ res b', delete b x = Ok (res, b') ∧ represents b' (delete_tree x t).
Proof.
  intros Hrep. destruct (descend_hit x t) as [Hleaf|(l & i & r & Hnode)].
  - exists None, b. split; [by eapply delete_absent|].
    unfold delete_tree. destruct (descend x t) as [c s]. simpl in *.
    by subst s.
  - destruct (delete_present b t x l i r Hrep Hnode) as (b' & ? & ? & _).
    by exists (Some i), b'.
Qed.

(** ** Invariants stated on the store *)

Lemma reach_ids h j p : reach h p j →
  ∀ par t, p = ptr t → shaped h par t → j ∈ ids t.
Proof.
  induction 1 as [i|i n j Hi Hr IH|i n j Hi Hr IH]; intros par t Hp Hs.
  - by apply ptr_in_ids.
  - destruct t as [|l i' k r]; [done|]. injection Hp as <-.
    destruct Hs as (Hi' & Hl & _). rewrite Hi in Hi'. injection Hi' as ->.
    simpl. apply elem_of_app. left. by eapply IH.
  - destruct t as [|l i' k r]; [done|]. injection Hp as <-.
    destruct Hs as (Hi' & _ & Hr'). rewrite Hi in Hi'. injection Hi' as ->.
    simpl. apply elem_of_app. right. right. by eapply IH.
Qed.

Lemma ids_reach h par t j : shaped h par t → j ∈ ids t → reach h (ptr t) j.
Proof.
  revert par. induction t as [|l IHl i k r IHr]; intros par Hs Hj.
  - by apply elem_of_nil in Hj.
  - destruct Hs as (Hi & Hl & Hr). simpl in Hj |- *.
    apply elem_of_app in Hj as [Hj|Hj].
    + eapply reach_left; [done|]. by eapply IHl.
    + apply elem_of_cons in Hj as [->|Hj]; [constructor|].
      eapply reach_right; [done|]. by eapply IHr.
Qed.

Lemma in_tree_ids b t j :
  root b = ptr t → shaped (heap b) None t → in_tree b j ↔ j ∈ ids t.
Proof.
  intros Hroot Hs. unfold in_tree. rewrite Hroot. split.
  - intros Hr. by eapply reach_ids.
  - by eapply ids_reach.
Qed.

Lemma key_in_elements h par t j nd :
  shaped h par t → j ∈ ids t → h !! j = Some nd → key nd ∈ elements t.
Proof.
  revert par. induction t as [|l IHl i k r IHr]; intros par Hs Hj Hnd.
  - by apply elem_of_nil in Hj.
  - destruct Hs as (Hi & Hl & Hr). simpl in Hj |- *.
    apply elem_of_app in Hj as [Hj|Hj].
    + apply elem_of_app. left. by eapply IHl.
    + apply elem_of_app. right.
      apply elem_of_cons in Hj as [->|Hj].
      * rewrite Hi in Hnd. injection Hnd as <-. by left.
      * right. by eapply IHr.
Qed.

Lemma sorted_ordered t : StronglySorted Z.lt (elements t) → ordered t.
Proof.
  induction t as [|l IHl i k r IHr]; simpl; [done|].
  intros Hs. apply StronglySorted_app in Hs as (Hlr & Hl & Hkr).
  apply StronglySorted_cons in Hkr as [Hk Hr]. split_and!; auto.
  apply Forall_forall. intros a Ha. apply Hlr; [done|]. by left.
Qed.

Lemma ordered_store h par t n nd :
  shaped h par t → ordered t → n ∈ ids t → h !! n = Some nd →
  (∀ m md, reach h (left nd) m → h !! m = Some md → key md < key nd)
  ∧ (∀ m md, reach h (right nd) m → h !! m = Some md → key nd < key md).
Proof.
  revert par. induction t as [|l IHl i k r IHr]; intros par Hs Ho Hn Hnd.
  - by apply elem_of_nil in Hn.
  - destruct Hs as (Hi & Hl & Hr). destruct Ho as (Hlt & Hgt & Hol & Hor).
    simpl in Hn. apply elem_of_app in Hn as [Hn|Hn]; [by eapply IHl|].
    apply elem_of_cons in Hn as [->|Hn]; [|by eapply IHr].
    rewrite Hi in Hnd. injection Hnd as <-. simpl.
    rewrite Forall_forall in Hlt, Hgt. split; intros m md Hm Hmd.
    + apply Hlt. eapply key_in_elements; [exact Hl| |done].
      by eapply reach_ids.
    + apply Hgt. eapply key_in_elements; [exact Hr| |done].
      by eapply reach_ids.
Qed.

Lemma key_inj h par t n m nd md :
  shaped h par t → StronglySorted Z.lt (elements t) →
  n ∈ ids t → m ∈ ids t → h !! n = Some nd → h !! m = Some md →
  key nd = key md → n = m.
Proof.
  revert par. induction t as [|l IHl i k r IHr];
    intros par Hs Hso Hn Hm Hnd Hmd Hk.
  - by apply elem_of_nil in Hn.
  - destruct Hs as (Hi & Hl & Hr). simpl in Hso, Hn, Hm.
    apply StronglySorted_app in Hso as (Hlr & Hsl & Hkr).
    apply StronglySorted_cons in Hkr as [Hkr Hsr].
    rewrite Forall_forall in Hkr.
    assert (∀ j jd, j ∈ ids l → h !! j = Some jd → key jd < k) as Hlk.
    { intros j jd Hj Hjd. apply Hlr; [|by left].
      by eapply key_in_elements. }
    assert (∀ j jd, j ∈ ids r → h !! j = Some jd → k < key jd) as Hrk.
    { intros j jd Hj Hjd. apply Hkr. by eapply key_in_elements. }
    assert (∀ jd, h !! i = Some jd → key jd = k) as Hik.
    { intros jd Hjd. rewrite Hi in Hjd. by injection Hjd as <-. }
    apply elem_of_app in Hn as [Hn|Hn]; [|apply elem_of_cons in Hn as [->|Hn]];
      (apply elem_of_app in Hm as [Hm|Hm]; [|apply elem_of_cons in Hm as [->|Hm]]);
      try done; try (by eapply IHl); try (by eapply IHr); exfalso;
      repeat match goal with
      | H : ?j ∈ ids l, H' : h !! ?j = Some _ |- _ =>
          apply (Hlk _ _ H) in H'; clear H
      | H : ?j ∈ ids r, H' : h !! ?j = Some _ |- _ =>
          apply (Hrk _ _ H) in H'; clear H
      | H' : h !! i = Some _ |- _ => apply Hik in H'
      end; lia.
Qed.

Lemma represents_bst_invariant b t : represents b t → bst_invariant b.
Proof.
  intros [Hroot Hs Hnd Hso]. split.
  - intros n nd Hn Hnd'. eapply ordered_store; [exact Hs| | |done].
    + by apply sorted_ordered.
    + by eapply in_tree_ids.
  - intros n m nd md Hn Hm. eapply key_inj; [exact Hs|done|..];
      by eapply in_tree_ids.
Qed.

Lemma shaped_root h par t c :
  shaped h par t → ptr t = Some c → ∃ nc, h !! c = Some nc ∧ parent nc = par.
Proof.
  destruct t as [|l i k r]; [done|]. intros (Hi & _) [= ->]. by eexists.
Qed.

Lemma parent_link h par t n nd p :
  shaped h par t → NoDup (ids t) → n ∈ ids t →
  h !! n = Some nd → parent nd = Some p →
  (ptr t = Some n ∧ par = Some p)
  ∨ (∃ np, h !! p = Some np ∧ p ∈ ids t
       ∧ ((left np = Some n ∧ right np ≠ Some n)
          ∨ (left np ≠ Some n ∧ right np = Some n))).
Proof.
  revert par. induction t as [|l IHl i k r IHr]; intros par Hs Hnd Hn Hnd' Hp.
  - by apply elem_of_nil in Hn.
  - pose proof Hs as (Hi & Hl & Hr).
    apply NoDup_ids_node in Hnd as (Hndl & Hndr & Hil & Hir & Hlr).
    simpl in Hn. apply elem_of_app in Hn as [Hn|Hn];
      [|apply elem_of_cons in Hn as [->|Hn]].
    + right. destruct (IHl _ Hl Hndl Hn Hnd' Hp)
        as [[Hpl [= <-]]|(np & Hnp & Hpin & Hside)].
      * eexists. split; [exact Hi|]. split; [simpl; set_solver|].
        left. simpl. split; [done|]. intros Hpr%ptr_in_ids. by eapply Hlr.
      * exists np. split; [done|]. split; [simpl; set_solver|done].
    + left. rewrite Hi in Hnd'. injection Hnd' as <-. by simpl in *.
    + right. destruct (IHr _ Hr Hndr Hn Hnd' Hp)
        as [[Hpr [= <-]]|(np & Hnp & Hpin & Hside)].
      * eexists. split; [exact Hi|]. split; [simpl; set_solver|].
        right. simpl. split; [|done]. intros Hpl%ptr_in_ids. by eapply Hlr.
      * exists np. split; [done|]. split; [simpl; set_solver|done].
Qed.

Lemma child_link h par t p np c :
  shaped h par t → p ∈ ids t → h !! p = Some np →
  left np = Some c ∨ right np = Some c →
  ∃ nc, h !! c = Some nc ∧ parent nc = Some p.
Proof.
  revert par. induction t as [|l IHl i k r IHr]; intros par Hs Hp Hnp Hc.
  - by apply elem_of_nil in Hp.
  - destruct Hs as (Hi & Hl & Hr). simpl in Hp.
    apply elem_of_app in Hp as [Hp|Hp]; [by eapply IHl|].
    apply elem_of_cons in Hp as [->|Hp]; [|by eapply IHr].
    rewrite Hi in Hnp. injection Hnp as <-. simpl in Hc.
    destruct Hc as [Hc|Hc];
      [exact (shaped_root _ _ _ _ Hl Hc)|exact (shaped_root _ _ _ _ Hr Hc)].
Qed.

Lemma shaped_links_consistent b t :
  root b = ptr t → shaped (heap b) None t → NoDup (ids t) →
  links_consistent b.
Proof.
  intros Hroot Hs Hnd. split_and!.
  - intros r Hr. rewrite Hroot in Hr. by eapply shaped_root.
  - intros n nd p Hn Hnd' Hp.
    apply (in_tree_ids b t n Hroot Hs) in Hn.
    destruct (parent_link _ _ _ _ _ _ Hs Hnd Hn Hnd' Hp)
      as [[_ ?]|(np & ? & Hpin & ?)]; [done|].
    exists np. split; [done|]. split; [|done]. by eapply in_tree_ids.
  - intros p np c Hp Hnp Hc.
    apply (in_tree_ids b t p Hroot Hs) in Hp. by eapply child_link.
Qed.

(** ** Runs of operation sequences *)

Lemma step_spec b t o :
  represents b t →
  ∃ b' t', step b o = Ok b' ∧ represents b' t'
    ∧ ∀ a, a ∈ elements t' ↔
        match o with
        | Insert k => a ∈ elements t ∨ a = k
        | Delete k => a ∈ elements t ∧ a ≠ k
        end.
Proof.
  intros Hrep. destruct o as [k|k]; simpl.
  - destruct (insert_spec b t k Hrep) as (res & b' & -> & Hrep').
    exists b', (insert_tree (length (heap b)) k t). split; [done|].
    split; [done|]. intros a. rewrite elements_insert_tree. tauto.
  - destruct (delete_spec b t k Hrep) as (res & b' & -> & Hrep').
    exists b', (delete_tree k t). split; [done|]. split; [done|].
    intros a. apply elements_delete_tree, Hrep.
Qed.

Lemma run_spec ops : ∀ b t s,
  represents b t → (∀ a, a ∈ elements t ↔ a ∈ s) →
  ∃ b' t', run b ops = Ok b' ∧ represents b' t'
    ∧ ∀ a, a ∈ elements t' ↔ a ∈ key_set s ops.
Proof.
  induction ops as [|o ops IH]; intros b t s Hrep Hs.
  - by exists b, t.
  - destruct (step_spec b t o Hrep) as (b1 & t1 & Hstep & Hrep1 & Hel).
    simpl. rewrite Hstep, ok_bind. eapply IH; [done|].
    intros a. rewrite Hel. destruct o; set_solver.
Qed.

Lemma run_empty_spec ops :
  ∃ b t, run empty ops = Ok b ∧ represents b t
    ∧ ∀ a, a ∈ elements t ↔ a ∈ key_set ∅ ops.
Proof.
  apply (run_spec ops empty Leaf ∅ represents_empty). set_solver.
Qed.

Lemma walk_trail h par t k :
  shaped h par t → walk h k (ptr t) (trail k t) (ptr (descend k t).2).
Proof.
  revert par. induction t as [|l IHl i x r IHr]; intros par Hs.
  - constructor.
  - destruct Hs as (Hi & Hl & Hr). simpl.
    destruct (Z.eqb_spec k x) as [->|Hne].
    + by eapply walk_found.
    + destruct (Z.ltb_spec k x).
      * eapply walk_left; [done|done|]. simpl.
        specialize (IHl _ Hl). by destruct (descend k l).
      * eapply walk_right; [done|simpl; lia|]. simpl.
        specialize (IHr _ Hr). by destruct (descend k r).
Qed.

Lemma subtree_at h par t n :
  shaped h par t → n ∈ ids t →
  ∃ par' l k r, shaped h par' (Node l n k r)
    ∧ (height (Node l n k r) ≤ height t)%nat.
Proof.
  revert par. induction t as [|l IHl i k r IHr]; intros par Hs Hn.
  - by apply elem_of_nil in Hn.
  - pose proof Hs as (Hi & Hl & Hr). simpl in Hn.
    apply elem_of_app in Hn as [Hn|Hn];
      [|apply elem_of_cons in Hn as [->|Hn]].
    + destruct (IHl _ Hl Hn) as (p & a & x & d & ? & ?).
      exists p, a, x, d. split; [done|]. simpl in *. lia.
    + by exists par, l, k, r.
    + destruct (IHr _ Hr Hn) as (p & a & x & d & ? & ?).
      exists p, a, x, d. split; [done|]. simpl in *. lia.
Qed.

Lemma occurs_once (l : list Z) k :
  NoDup l → k ∈ l → length (filter (fun a => a = k) l) = 1%nat.
Proof.
  induction 1 as [|a l Hnin Hnd IH]; intros Hin.
  - by apply elem_of_nil in Hin.
  - rewrite filter_cons. destruct (decide (a = k)) as [->|Hne].
    + simpl. f_equal.
      destruct (filter (fun a => a = k) l) as [|c l'] eqn:Hf; [done|].
      assert (c ∈ filter (fun a => a = k) l) as Hc by (rewrite Hf; by left).
      apply list_elem_of_filter in Hc as [-> Hc]. done.
    + apply IH. apply elem_of_cons in Hin as [->|?]; done.
Qed.

Lemma sorted_same_set (l1 l2 : list Z) :
  StronglySorted Z.lt l1 → StronglySorted Z.lt l2 →
  (∀ a, a ∈ l1 ↔ a ∈ l2) → l1 = l2.
Proof.
  intros H1 H2 Hset. apply (StronglySorted_unique_strong Z.lt); [|done..|].
  - intros; lia.
  - apply NoDup_Permutation; [by apply sorted_NoDup..|done].
Qed.

(** * The claims *)

(** C1.  After every sequence of inserts and deletes from the empty tree,
    and after every prefix of it, the BST invariant holds on the store:
    for every node of the tree, all keys reachable through its [left] are
    strictly smaller and all keys reachable through its [right] strictly
    larger, and no two nodes of the tree hold the same key. *)
Theorem bst_invariant_always (ops : list op) (n : nat) :
  ∃ b, run empty (take n ops) = Ok b ∧ bst_invariant b.
Proof.
  destruct (run_empty_spec (take n ops)) as (b & t & Hrun & Hrep & _).
  exists b. split; [done|]. by eapply represents_bst_invariant.
Qed.

(** C3.  In every reachable state [inorder] returns a strictly ascending
    list whose members are exactly the keys currently present; at every
    node of the tree the traversal is the traversal of the left subtree,
    then the node's key, then the traversal of the right subtree.  The
    traversal only reads the store: it returns the key list and no state. *)
Theorem inorder_ascending (ops : list op) :
  ∃ b ks, run empty ops = Ok b ∧ inorder b = Ok ks
    ∧ StronglySorted Z.lt ks
    ∧ (∀ k, k ∈ ks ↔ k ∈ key_set ∅ ops)
    ∧ (∀ n nd, in_tree b n → heap b !! n = Some nd →
         ∃ kl kr,
           inorder_dfs (length (heap b)) b (left nd) [] = Ok kl
           ∧ inorder_dfs (length (heap b)) b (right nd) [] = Ok kr
           ∧ inorder_dfs (length (heap b)) b (Some n) []
             = Ok (kl ++ key nd :: kr)).
Proof.
  destruct (run_empty_spec ops) as (b & t & Hrun & Hrep & Hset).
  exists b, (elements t). split; [done|]. split; [by apply inorder_spec|].
  split; [apply Hrep|]. split; [done|].
  intros n nd Hn Hnd. pose proof (represents_fuel _ _ Hrep) as Hfuel.
  destruct Hrep as [Hroot Hs Hndp _].
  apply (in_tree_ids b t n Hroot Hs) in Hn.
  destruct (subtree_at _ _ _ _ Hs Hn) as (p & l & k & r & Hsub & Hh).
  pose proof Hsub as (Hi & Hl & Hr). rewrite Hi in Hnd. injection Hnd as <-.
  simpl in Hh. exists (elements l), (elements r). cbn [left right key].
  split; [|split].
  - rewrite (inorder_dfs_spec b l _ (Some n) [] Hl); [done|lia].
  - rewrite (inorder_dfs_spec b r _ (Some n) [] Hr); [done|lia].
  - change (Some n) with (ptr (Node l n k r)).
    rewrite (inorder_dfs_spec b _ _ p [] Hsub); [done|simpl; lia].
Qed.

Lemma sample_represents : represents sample sample_tree.
Proof. solve_represents. Qed.

(** C5.  Inserting a key that is already present creates no node: the call
    returns [(None, x)] with [x] the node of the tree that holds the key,
    and the state is returned as it was, so the traversal still lists the
    key exactly once and depth and node list are what they were. *)
Theorem insert_duplicate b t k ks :
  represents b t → inorder b = Ok ks → k ∈ ks →
  ∃ x nx b',
    insert b k = Ok ((None, Some x), b')
    ∧ b' = b
    ∧ in_tree b x ∧ heap b !! x = Some nx ∧ key nx = k
    ∧ inorder b' = Ok ks
    ∧ length (filter (fun a => a = k) ks) = 1%nat
    ∧ depth b' = depth b ∧ nodes b' = nodes b.
Proof.
  intros Hrep Hin Hk. rewrite (inorder_spec _ _ Hrep) in Hin.
  injection Hin as <-.
  destruct (descend_found k t (rep_sorted _ _ Hrep) Hk) as (l & x & r & Hnode).
  pose proof (descend_plug k t) as Hplug. rewrite Hnode in Hplug.
  assert (x ∈ ids t) as Hx.
  { rewrite <- Hplug. apply elem_of_ids_plug. left. simpl. set_solver. }
  pose proof (rep_shaped _ _ Hrep) as Hs. rewrite <- Hplug in Hs.
  apply shaped_plug in Hs as [_ (Hx' & _)].
  eexists x, _, b. split; [by eapply insert_dup|]. split; [done|].
  split; [eapply in_tree_ids; [apply Hrep..|done]|].
  split; [exact Hx'|]. split; [done|].
  split; [by apply inorder_spec|].
  split; [|done]. apply occurs_once; [|done].
  apply sorted_NoDup, Hrep.
Qed.

Lemma insert_duplicate_witness :
  ∃ x nx b',
    insert sample 8 = Ok ((None, Some x), b')
    ∧ b' = sample
    ∧ in_tree sample x ∧ heap sample !! x = Some nx ∧ key nx = 8
    ∧ inorder b' = Ok [3; 8; 10]
    ∧ length (filter (fun a => a = 8) [3; 8; 10]) = 1%nat
    ∧ depth b' = depth sample ∧ nodes b' = nodes sample.
Proof.
  apply (insert_duplicate sample sample_tree 8 [3; 8; 10]).
  - solve_represents.
  - reflexivity.
  - set_solver.
Defined.

(** C6.  Deleting a key that is not present returns [None] and the state
    as it was (so the traversal is the same before and after); searching
    it returns no node together with the comparison trail that was
    walked.  [search] returns no state at all. *)
Theorem absent_key_untouched b t k ks :
  represents b t → inorder b = Ok ks → k ∉ ks →
  ∃ b' path,
    delete b k = Ok (None, b') ∧ b' = b ∧ inorder b' = Ok ks
    ∧ search b k = Ok (path, None)
    ∧ walk (heap b) k (root b) path None.
Proof.
  intros Hrep Hin Hk. rewrite (inorder_spec _ _ Hrep) in Hin.
  injection Hin as <-.
  assert ((descend k t).2 = Leaf) as Hleaf.
  { destruct (descend_hit k t) as [?|(l & i & r & Hnode)]; [done|].
    by apply descend_present in Hnode. }
  exists b, (trail k t). split; [by eapply delete_absent|].
  split; [done|]. split; [by apply inorder_spec|].
  rewrite (search_spec _ _ k Hrep), Hleaf. split; [done|].
  rewrite (rep_root _ _ Hrep).
  pose proof (walk_trail _ _ _ k (rep_shaped _ _ Hrep)) as Hw.
  by rewrite Hleaf in Hw.
Qed.

Lemma absent_key_untouched_witness :
  ∃ b' path,
    delete sample 9 = Ok (None, b') ∧ b' = sample
    ∧ inorder b' = Ok [3; 8; 10]
    ∧ search sample 9 = Ok (path, None)
    ∧ walk (heap sample) 9 (root sample) path None.
Proof.
  apply (absent_key_untouched sample sample_tree 9 [3; 8; 10]).
  - solve_represents.
  - reflexivity.
  - set_solver.
Defined.

(** C9.  [search] returns the comparison trail from the root: every
    visited node in order, going left on a smaller key and right on a
    larger one, ending at the node with the key (returned as found) or at
    an empty child reference (nothing found).  The path is empty only on
    the empty tree, a found node holds the key and closes the path, and
    nothing is found exactly when the key is absent.  [search] returns no
    state. *)
Theorem search_trail b t k :
  represents b t →
  ∃ path found,
    search b k = Ok (path, found)
    ∧ walk (heap b) k (root b) path found
    ∧ (path = [] → root b = None)
    ∧ (∀ f, found = Some f →
         last path = Some f ∧ ∃ nf, heap b !! f = Some nf ∧ key nf = k)
    ∧ (found = None ↔ inorder b = Ok (elements t) ∧ k ∉ elements t).
Proof.
  intros Hrep. exists (trail k t), (ptr (descend k t).2).
  split; [by apply search_spec|].
  pose proof (walk_trail _ _ _ k (rep_shaped _ _ Hrep)) as Hw.
  rewrite <- (rep_root _ _ Hrep) in Hw. split; [done|].
  split; [|split].
  - rewrite (rep_root _ _ Hrep). by destruct t.
  - clear Hrep. revert Hw. generalize (root b).
    induction 1 as [|i n Hi Hk|i n p fd Hi Hk Hw IH|i n p fd Hi Hk Hw IH];
      intros f Hf.
    + done.
    + injection Hf as <-. split; [done|]. by exists n.
    + destruct (IH f Hf) as [Hlast ?]. split; [|done].
      destruct p; [done|]. by rewrite last_cons, Hlast.
    + destruct (IH f Hf) as [Hlast ?]. split; [|done].
      destruct p; [done|]. by rewrite last_cons, Hlast.
  - split.
    + intros Hnone. split; [by apply inorder_spec|].
      apply descend_absent; [apply Hrep|].
      by destruct ((descend k t).2).
    + intros [_ Hk].
      destruct (descend_hit k t) as [->|(l & i & r & Hnode)]; [done|].
      by apply descend_present in Hnode.
Qed.

Lemma search_trail_witness :
  ∃ path found,
    search sample 10 = Ok (path, found)
    ∧ walk (heap sample) 10 (root sample) path found
    ∧ (path = [] → root sample = None)
    ∧ (∀ f, found = Some f →
         last path = Some f
         ∧ ∃ nf, heap sample !! f = Some nf ∧ key nf = 10)
    ∧ (found = None ↔
         inorder sample = Ok (elements sample_tree)
         ∧ 10 ∉ elements sample_tree).
Proof.
  apply (search_trail sample sample_tree 10). solve_represents.
Defined.

Lemma ptr_plug_in_ctx f c s i :
  ptr (plug (f :: c) s) = Some i → i ∈ ctx_ids (f :: c).
Proof.
  revert f s. induction c as [|g c IH]; intros f s.
  - simpl. rewrite ptr_fill. intros [= <-]. set_solver.
  - intros Hp. change (ptr (plug (g :: c) (fill f s)) = Some i) in Hp.
    apply IH in Hp. simpl in *. set_solver.
Qed.

(** C2.  Deleting a present key [k] from a well-formed tree returns the
    node [z] that holds [k]; the keys stored afterwards are the previous
    ones without [k].  The tree afterwards is the old one with the subtree
    at [z] replaced, everything around it ([c]) untouched.  When [z] has
    two children [l] and [r], the replacement is rooted at
    [y = minimum(z.right)], whose left subtree is [l]; if [y] is the
    immediate right child of [z] it keeps its right subtree, otherwise its
    old slot inside [r] now holds its old right subtree [ry] and [y]'s
    right subtree is [r] so changed. *)
Theorem delete_present_key b t k :
  represents b t → k ∈ elements t →
  ∃ c l z r s b',
    t = plug c (Node l z k r)
    ∧ delete b k = Ok (Some z, b')
    ∧ (∃ nz, heap b !! z = Some nz ∧ key nz = k
         ∧ left nz = ptr l ∧ right nz = ptr r)
    ∧ represents b' (plug c s)
    ∧ inorder b = Ok (elements t)
    ∧ inorder b' = Ok (elements (plug c s))
    ∧ (∀ a, a ∈ elements (plug c s) ↔ a ∈ elements t ∧ a ≠ k)
    ∧ (l ≠ Leaf → r ≠ Leaf →
       ∃ cr y ky ry,
         minimum b (ptr r) = Ok (Some y)
         ∧ r = plug cr (Node Leaf y ky ry)
         ∧ s = Node l y ky (plug cr ry)
         ∧ (cr = [] ↔ ptr r = Some y)).
Proof.
  intros Hrep Hk.
  destruct (descend_found k t (rep_sorted _ _ Hrep) Hk) as (l & z & r & Hnode).
  destruct (delete_present b t k l z r Hrep Hnode) as (b' & Hdel & Hrep' & _).
  pose proof (descend_plug k t) as Hplug. rewrite Hnode in Hplug.
  unfold delete_tree in Hrep'.
  destruct (descend k t) as [c m]. simpl in Hnode, Hplug. subst m.
  exists c, l, z, r, (spliced l r), b'.
  pose proof (rep_shaped _ _ Hrep) as Hs. rewrite <- Hplug in Hs.
  apply shaped_plug in Hs as [_ (Hz & Hl & Hr)].
  pose proof (rep_nodup _ _ Hrep) as Hnd. rewrite <- Hplug in Hnd.
  apply NoDup_ids_plug in Hnd as (Hndn & _ & _).
  apply NoDup_ids_node in Hndn as (_ & Hndr & _).
  split; [done|]. split; [done|]. split; [by eexists|]. split; [done|].
  split; [by apply inorder_spec|]. split; [by apply inorder_spec|].
  split.
  { pose proof (rep_sorted _ _ Hrep) as Hso. rewrite <- Hplug in Hso |- *.
    by apply elements_delete. }
  intros Hl' Hr'.
  destruct (spliced_cases l r)
    as [[? _]|[(_ & ? & _)|(_ & _ & cr & y & ky & ry & Hlm & Hreq & _ & Hspl)]];
    [done|done|].
  exists cr, y, ky, ry.
  rewrite (minimum_spec b (Some z) r Hr' Hr Hndr), Hlm.
  split; [done|]. split; [done|]. split; [done|].
  split; [by intros ->; rewrite Hreq|].
  intros Hp. destruct cr as [|f cr1]; [done|]. exfalso.
  rewrite Hreq in Hp, Hndr. apply ptr_plug_in_ctx in Hp.
  apply NoDup_ids_plug in Hndr as (_ & Hdisj & _).
  apply (Hdisj y); [|done]. simpl. set_solver.
Qed.

Lemma delete_present_key_witness :
  ∃ c l z r s b',
    sample_tree = plug c (Node l z 8 r)
    ∧ delete sample 8 = Ok (Some z, b')
    ∧ (∃ nz, heap sample !! z = Some nz ∧ key nz = 8
         ∧ left nz = ptr l ∧ right nz = ptr r)
    ∧ represents b' (plug c s)
    ∧ inorder sample = Ok (elements sample_tree)
    ∧ inorder b' = Ok (elements (plug c s))
    ∧ (∀ a, a ∈ elements (plug c s) ↔ a ∈ elements sample_tree ∧ a ≠ 8)
    ∧ (l ≠ Leaf → r ≠ Leaf →
       ∃ cr y ky ry,
         minimum sample (ptr r) = Ok (Some y)
         ∧ r = plug cr (Node Leaf y ky ry)
         ∧ s = Node l y ky (plug cr ry)
         ∧ (cr = [] ↔ ptr r = Some y)).
Proof.
  apply (delete_present_key sample sample_tree 8).
  - solve_represents.
  - simpl. set_solver.
Defined.

(** C10, as stated, fails when the key is already there: the insert is
    then a refused duplicate and the delete removes the key. *)
Lemma insert_delete_present_key :
  ∃ r1 b1 r2 b2,
    run empty [Insert 8; Insert 3; Insert 10] = Ok sample
    ∧ insert sample 8 = Ok (r1, b1) ∧ delete b1 8 = Ok (r2, b2)
    ∧ inorder sample = Ok [3; 8; 10] ∧ inorder b2 = Ok [3; 10].
Proof. do 4 eexists. by_evaluation. Qed.

(** C10, amended.  For a well-formed tree and a key that is not present,
    inserting the key and then deleting it gives back the key sequence
    that was there before the insert. *)
Theorem insert_delete_absent_key b t k ks :
  represents b t → inorder b = Ok ks → k ∉ ks →
  ∃ z p b1 z' b2,
    insert b k = Ok ((Some z, p), b1)
    ∧ delete b1 k = Ok (Some z', b2)
    ∧ inorder b2 = Ok ks.
Proof.
  intros Hrep Hin Hk. rewrite (inorder_spec _ _ Hrep) in Hin.
  injection Hin as <-.
  assert ((descend k t).2 = Leaf) as Hleaf.
  { destruct (descend_hit k t) as [?|(l & i & r & Hnode)]; [done|].
    by apply descend_present in Hnode. }
  destruct (insert_fresh b t k Hrep Hleaf) as (b1 & Hins & Hrep1 & _).
  set (t1 := insert_tree (length (heap b)) k t) in *.
  assert (k ∈ elements t1) as Hk1 by (apply elements_insert_tree; by left).
  destruct (descend_found k t1 (rep_sorted _ _ Hrep1) Hk1)
    as (l & z' & r & Hnode).
  destruct (delete_present b1 t1 k l z' r Hrep1 Hnode)
    as (b2 & Hdel & Hrep2 & _).
  eexists _, _, b1, z', b2. split; [done|]. split; [done|].
  rewrite (inorder_spec _ _ Hrep2). f_equal.
  apply sorted_same_set; [apply Hrep2|apply Hrep|].
  intros a. rewrite elements_delete_tree by apply Hrep1.
  unfold t1. rewrite elements_insert_tree. set_solver.
Qed.

Lemma insert_delete_absent_key_witness :
  ∃ z p b1 z' b2,
    insert sample 5 = Ok ((Some z, p), b1)
    ∧ delete b1 5 = Ok (Some z', b2)
    ∧ inorder b2 = Ok [3; 8; 10].
Proof.
  apply (insert_delete_absent_key sample sample_tree 5 [3; 8; 10]).
  - solve_represents.
  - reflexivity.
  - set_solver.
Defined.

(** C7, as stated, fails for [minimum]: on the empty tree the root
    reference is [None], and [minimum] reads [x.left] first. *)
Lemma minimum_on_empty_raises :
  minimum empty (root empty) = Fail AttributeError
  ∧ minimum empty (root empty) ≠ Ok None.
Proof. split; [reflexivity|discriminate]. Qed.

(** C7, amended.  On an empty tree [depth] returns 0 and [inorder] the
    empty list, both without a fault; [minimum] applied to the empty root
    reference raises [AttributeError]. *)
Theorem empty_tree_queries b :
  root b = None →
  depth b = Ok 0%nat ∧ inorder b = Ok []
  ∧ minimum b (root b) = Fail AttributeError.
Proof.
  intros Hroot. unfold depth, inorder, minimum. rewrite Hroot.
  split; [|split]; by destruct (length (heap b)).
Qed.

Lemma empty_tree_queries_witness :
  depth (clear sample) = Ok 0%nat ∧ inorder (clear sample) = Ok []
  ∧ minimum (clear sample) (root (clear sample)) = Fail AttributeError.
Proof. apply (empty_tree_queries (clear sample)). reflexivity. Defined.

(** C8, as stated, fails for [transplant] in general: when [v] is a node
    that stays in the tree above [u], the links are broken afterwards
    (here the root ends up as its own parent and its own left child). *)
Lemma transplant_ancestor_breaks_links :
  run empty [Insert 2; Insert 1] = Ok pair_state
  ∧ links_consistent pair_state
  ∧ ∃ b', transplant pair_state (Some 1%nat) (Some 0%nat) = Ok b'
      ∧ ¬ links_consistent b'.
Proof.
  split; [vm_compute; reflexivity|]. split.
  - apply (shaped_links_consistent pair_state
             (Node (Node Leaf 1%nat 1 Leaf) 0%nat 2 Leaf)).
    + reflexivity.
    + simpl. repeat split; reflexivity.
    + simpl. repeat (apply NoDup_cons_2; [set_solver|]). apply NoDup_nil_2.
  - eexists. split; [vm_compute; reflexivity|].
    intros (Hroot & _). destruct (Hroot 0%nat eq_refl) as (nr & Hnr & Hpar).
    vm_compute in Hnr. injection Hnr as <-. discriminate.
Qed.

(** C8, amended.  After every sequence of inserts and deletes from the
    empty tree (and every prefix of it) the parent and child links of the
    tree are mutually consistent and the root has no parent.
    [transplant(u, v)] yields a consistent tree whenever [u] is a node of a
    consistent tree and [v] is empty or roots a subtree that shares no
    node with [u] itself and with the part of the tree outside the subtree
    of [u]; the tree afterwards is the old one with [v]'s subtree in the
    place of [u]'s. *)
Theorem links_consistent_always :
  (∀ ops n, ∃ b, run empty (take n ops) = Ok b ∧ links_consistent b)
  ∧ (∀ b c l u k r pv s,
       root b = ptr (plug c (Node l u k r)) →
       shaped (heap b) None (plug c (Node l u k r)) →
       NoDup (ids (plug c (Node l u k r))) →
       shaped (heap b) pv s → NoDup (ids s) →
       (∀ j, j ∈ ids s → j ∉ u :: ctx_ids c) →
       ∃ b', transplant b (Some u) (ptr s) = Ok b'
         ∧ links_consistent b'
         ∧ root b' = ptr (plug c s)
         ∧ shaped (heap b') None (plug c s)).
Proof.
  split.
  - intros ops n.
    destruct (run_empty_spec (take n ops)) as (b & t & Hrun & Hrep & _).
    exists b. split; [done|].
    eapply shaped_links_consistent; apply Hrep.
  - intros b c l u k r pv s Hroot Hsh Hnd Hs Hnds Hdisj.
    apply shaped_plug in Hsh as [Hctx (Hu & _)]. cbn [ptr] in Hctx.
    apply NoDup_ids_plug in Hnd as (_ & Hout & Hndc).
    assert (NoDup (u :: ctx_ids c)) as Hndu.
    { apply NoDup_cons. split; [|done]. apply Hout. simpl. set_solver. }
    destruct (transplant_child b c u _ Hu eq_refl Hctx Hndu s pv Hs Hnds Hdisj)
      as (b' & Hb' & Hroot' & _ & Hctx' & Hs' & _).
    assert (root b' = ptr (plug c s)) as Hr'.
    { rewrite Hroot'. destruct c as [|f c']; [done|].
      rewrite Hroot. apply ptr_plug_cons. }
    assert (shaped (heap b') None (plug c s)) as Hsh'
      by (apply shaped_plug; by split).
    exists b'. split; [done|]. split; [|by split].
    eapply shaped_links_consistent; [done..|].
    apply NoDup_ids_plug. split; [done|]. split; [|done].
    intros j Hj. specialize (Hdisj j Hj). set_solver.
Qed.

Lemma links_consistent_always_witness :
  ∃ b', transplant sample (Some 1%nat) (ptr Leaf) = Ok b'
    ∧ links_consistent b'
    ∧ root b' = ptr (plug [InLeft 0%nat 8 (Node Leaf 2%nat 10 Leaf)] Leaf)
    ∧ shaped (heap b') None
        (plug [InLeft 0%nat 8 (Node Leaf 2%nat 10 Leaf)] Leaf).
Proof.
  apply (proj2 links_consistent_always sample
           [InLeft 0%nat 8 (Node Leaf 2%nat 10 Leaf)]
           Leaf 1%nat 3 Leaf None Leaf).
  - reflexivity.
  - simpl. repeat split; reflexivity.
  - simpl. repeat (apply NoDup_cons_2; [set_solver|]). apply NoDup_nil_2.
  - exact I.
  - apply NoDup_nil_2.
  - simpl. set_solver.
Defined.

(** C4, as stated, fails at the deletion: in the tree built by the
    inserts the right subtree of 3 is rooted at 6 and holds 4, 6 and 7, so
    its minimum, the successor used, is the node with key 4, and it is 4,
    not 6, that stands in the former place of 3 afterwards. *)
Lemma scenario_successor_is_not_6 :
  ∃ b1 z nz y ny b2 n8 nl,
    run empty scenario = Ok b1
    ∧ search b1 3 = Ok ([0%nat; z], Some z)
    ∧ get b1 (Some z) = Some nz ∧ key nz = 3
    ∧ minimum b1 (right nz) = Ok y
    ∧ get b1 y = Some ny ∧ key ny = 4 ∧ key ny ≠ 6
    ∧ delete b1 3 = Ok (Some z, b2)
    ∧ get b2 (root b2) = Some n8 ∧ key n8 = 8
    ∧ get b2 (left n8) = Some nl ∧ key nl = 4 ∧ key nl ≠ 6.
Proof.
  do 8 eexists. by_evaluation.
Qed.

(** C4, amended.  Inserting 8, 3, 10, 1, 6, 14, 4, 7, 13 into the empty
    tree gives the traversal 1, 3, 4, 6, 7, 8, 10, 13, 14 and depth 4.  The
    node of 3 then has the children 1 and 6; deleting 3 uses the successor
    4, the minimum of the right subtree, and gives the traversal
    1, 4, 6, 7, 8, 10, 13, 14 with 4 in the former place of 3 (left child
    of 8), its left child 1 and its right child 6.  Searching 13 in this
    tree visits 8, 10, 14, 13 and finds the node of 13. *)
Theorem scenario_trace :
  ∃ b1 r8 z nz nzl nzr y ny b2 n8 n4 n4l n4r path f nf,
    run empty scenario = Ok b1
    ∧ inorder b1 = Ok [1; 3; 4; 6; 7; 8; 10; 13; 14]
    ∧ depth b1 = Ok 4%nat
    ∧ get b1 (root b1) = Some r8 ∧ key r8 = 8 ∧ left r8 = Some z
    ∧ search b1 3 = Ok ([0%nat; z], Some z)
    ∧ get b1 (Some z) = Some nz ∧ key nz = 3 ∧ parent nz = root b1
    ∧ get b1 (left nz) = Some nzl ∧ key nzl = 1
    ∧ get b1 (right nz) = Some nzr ∧ key nzr = 6
    ∧ minimum b1 (right nz) = Ok y
    ∧ get b1 y = Some ny ∧ key ny = 4
    ∧ delete b1 3 = Ok (Some z, b2)
    ∧ inorder b2 = Ok [1; 4; 6; 7; 8; 10; 13; 14]
    ∧ get b2 (root b2) = Some n8 ∧ key n8 = 8
    ∧ left n8 = y ∧ get b2 y = Some n4 ∧ key n4 = 4
    ∧ parent n4 = root b2
    ∧ get b2 (left n4) = Some n4l ∧ key n4l = 1 ∧ parent n4l = y
    ∧ get b2 (right n4) = Some n4r ∧ key n4r = 6 ∧ parent n4r = y
    ∧ search b2 13 = Ok (path, Some f)
    ∧ keys_of b2 path = [8; 10; 14; 13]
    ∧ get b2 (Some f) = Some nf ∧ key nf = 13.
Proof.
  do 16 eexists. by_evaluation.
Qed.

(** * Further properties of the operations *)

(** ** Nodes and keys in traversal order *)

Lemma ids_items t : ids t = (items t).*1.
Proof.
  induction t as [|l IHl i k r IHr]; simpl; [done|].
  by rewrite fmap_app, fmap_cons, IHl, IHr.
Qed.

Lemma elements_items t : elements t = (items t).*2.
Proof.
  induction t as [|l IHl i k r IHr]; simpl; [done|].
  by rewrite fmap_app, fmap_cons, IHl, IHr.
Qed.

Lemma items_plug c t :
  items (plug c t) = items_before c ++ items t ++ items_after c.
Proof.
  revert t. induction c as [|[i k r|l i k] c IH]; intros t; simpl.
  - by rewrite app_nil_r.
  - rewrite IH. simpl. by rewrite <- !app_assoc.
  - rewrite IH. simpl. rewrite <- !app_assoc. simpl. done.
Qed.

Lemma leftmost_items_before t : items_before (leftmost t).1 = [].
Proof.
  induction t as [|l IHl i k r IHr]; simpl; [done|].
  destruct l as [|ll li lk lr]; [done|].
  destruct (leftmost (Node ll li lk lr)) as [c s]. simpl in *.
  clear IHr. induction c as [|[]]; simpl in *; [done|by auto|].
  by destruct (items_before c), (items l).
Qed.

Lemma items_spliced l r : items (spliced l r) = items l ++ items r.
Proof.
  destruct (spliced_cases l r)
    as [[-> ->]|[(_ & -> & ->)|(_ & _ & cr & y & ky & ry & Hlm & -> & _ & ->)]].
  - done.
  - by rewrite app_nil_r.
  - pose proof (leftmost_items_before (plug cr (Node Leaf y ky ry))) as Hb.
    rewrite Hlm in Hb. simpl in Hb.
    simpl. rewrite !items_plug, Hb. done.
Qed.

Lemma keys_of_ids b par t :
  shaped (heap b) par t → keys_of b (ids t) = elements t.
Proof.
  unfold keys_of. revert par.
  induction t as [|l IHl i k r IHr]; intros par; simpl; [done|].
  intros (Hi & Hl & Hr). rewrite omap_app. cbn [omap list_omap].
  rewrite Hi. cbn [fmap option_fmap option_map key].
  f_equal; [exact (IHl _ Hl)|]. f_equal. exact (IHr _ Hr).
Qed.

Lemma items_lookup h par t i k :
  shaped h par t → (i, k) ∈ items t → ∃ nd, h !! i = Some nd ∧ key nd = k.
Proof.
  revert par. induction t as [|l IHl j x r IHr]; intros par Hs Hin.
  - by apply elem_of_nil in Hin.
  - destruct Hs as (Hj & Hl & Hr). simpl in Hin.
    apply elem_of_app in Hin as [Hin|Hin]; [by eapply IHl|].
    apply elem_of_cons in Hin as [[= -> ->]|Hin]; [by eexists|by eapply IHr].
Qed.

Lemma keys_of_fst b (l : list (ref * Z)) :
  (∀ i k, (i, k) ∈ l → ∃ nd, heap b !! i = Some nd ∧ key nd = k) →
  keys_of b l.*1 = l.*2.
Proof.
  unfold keys_of. induction l as [|[i k] l IH]; intros Hl; [done|].
  destruct (Hl i k) as (nd & Hnd & Hk); [by left|].
  cbn [fmap list_fmap fst snd omap list_omap]. rewrite Hnd.
  cbn [fmap option_fmap option_map]. rewrite Hk. f_equal.
  apply IH. intros j x Hj. apply Hl. by right.
Qed.

Lemma descend_plug_on_path x c s :
  Forall (on_path x) c →
  descend x (plug c s) = ((descend x s).1 ++ c, (descend x s).2).
Proof.
  revert s. induction c as [|f c IH]; intros s Hp.
  - simpl. rewrite app_nil_r. by destruct (descend x s).
  - apply Forall_cons in Hp as [Hf Hp]. simpl. rewrite (IH _ Hp).
    assert (descend x (fill f s)
            = ((descend x s).1 ++ [f], (descend x s).2)) as ->.
    { destruct f as [i k r|l i k]; simpl in Hf |- *.
      - destruct (Z.eqb_spec x k); [lia|]. destruct (Z.ltb_spec x k); [|lia].
        by destruct (descend x s).
      - destruct (Z.eqb_spec x k); [lia|]. destruct (Z.ltb_spec x k); [lia|].
        by destruct (descend x s). }
    simpl. by rewrite <- app_assoc.
Qed.

Lemma trail_descend x t :
  trail x t
  = reverse (frame_id <$> (descend x t).1)
    ++ match ptr (descend x t).2 with Some i => [i] | None => [] end.
Proof.
  induction t as [|l IHl i k r IHr]; simpl; [done|].
  destruct (x =? k); [done|]. destruct (x <? k).
  - rewrite IHl. destruct (descend x l) as [c s]. simpl.
    by rewrite fmap_app, reverse_app.
  - rewrite IHr. destruct (descend x r) as [c s]. simpl.
    by rewrite fmap_app, reverse_app.
Qed.

Lemma hole_parent_last c :
  hole_parent None c = last (reverse (frame_id <$> c)).
Proof.
  destruct c as [|f c]; [done|]. simpl.
  by rewrite reverse_cons, last_snoc.
Qed.

(** ** [insert] of a new key *)



(** X2.  A search for a key that is absent ends below the node [insert]
    would hang the key on; after the insert the same search walks the same
    path, then visits the new node and finds it. *)
Theorem search_after_insert b t k ks :
  represents b t → inorder b = Ok ks → k ∉ ks →
  ∃ path z b',
    search b k = Ok (path, None)
    ∧ insert b k = Ok ((Some z, last path), b')
    ∧ search b' k = Ok (path ++ [z], Some z).
Proof.
  intros Hrep Hin Hk. rewrite (inorder_spec _ _ Hrep) in Hin.
  injection Hin as <-.
  assert ((descend k t).2 = Leaf) as Hleaf.
  { destruct (descend_hit k t) as [?|(l & i & r & Hnode)]; [done|].
    by apply descend_present in Hnode. }
  destruct (insert_fresh b t k Hrep Hleaf) as (b' & Hins & Hrep' & _).
  exists (trail k t), (length (heap b)), b'.
  rewrite (search_spec _ _ k Hrep), (search_spec _ _ k Hrep'), Hleaf.
  split; [done|].
  pose proof (descend_on_path k t) as Hpath.
  unfold insert_tree in *. rewrite (trail_descend k t), Hleaf.
  destruct (descend k t) as [c s]. simpl in Hleaf, Hpath, Hins |- *. subst s.
  rewrite app_nil_r, <- hole_parent_last. split; [done|].
  rewrite trail_descend, (descend_plug_on_path k c _ Hpath). simpl.
  rewrite Z.eqb_refl. simpl. done.
Qed.

Lemma search_after_insert_witness :
  ∃ path z b',
    search sample 5 = Ok (path, None)
    ∧ insert sample 5 = Ok ((Some z, last path), b')
    ∧ search b' 5 = Ok (path ++ [z], Some z).
Proof.
  apply (search_after_insert sample sample_tree 5 [3; 8; 10]).
  - solve_represents.
  - reflexivity.
  - set_solver.
Defined.

(** ** [delete] of a present key *)

(** X3.  Deleting a present key unlinks exactly the returned node [z]:
    the node list afterwards is the old one without [z], in the same
    order, every remaining node shows the key it showed before, and [z]
    is no longer reachable from the root.  A search for the key then finds
    nothing. *)
Theorem delete_unlinks_one_node b t k ks :
  represents b t → inorder b = Ok ks → k ∈ ks →
  ∃ z b' n1 n2 path,
    delete b k = Ok (Some z, b')
    ∧ nodes b = Ok (n1 ++ z :: n2) ∧ nodes b' = Ok (n1 ++ n2)
    ∧ (z ∉ n1 ++ n2) ∧ ¬ in_tree b' z
    ∧ keys_of b' (n1 ++ n2) = keys_of b (n1 ++ n2)
    ∧ search b' k = Ok (path, None).
Proof.
  intros Hrep Hin Hk. rewrite (inorder_spec _ _ Hrep) in Hin.
  injection Hin as <-.
  destruct (descend_found k t (rep_sorted _ _ Hrep) Hk) as (l & z & r & Hnode).
  destruct (delete_present b t k l z r Hrep Hnode) as (b' & Hdel & Hrep' & _).
  pose proof (descend_plug k t) as Hplug. rewrite Hnode in Hplug.
  set (t' := delete_tree k t) in *.
  assert (t' = plug (descend k t).1 (spliced l r)) as Ht'.
  { unfold t', delete_tree. destruct (descend k t) as [c s].
    simpl in Hnode. by subst s. }
  set (c := (descend k t).1) in *.
  exists z, b', (items_before c ++ items l).*1, (items r ++ items_after c).*1,
    (trail k t').
  split; [done|].
  rewrite (nodes_spec _ _ Hrep), (nodes_spec _ _ Hrep').
  assert (ids t = (items_before c ++ items l).*1
                  ++ z :: (items r ++ items_after c).*1) as Hids.
  { rewrite <- Hplug, ids_items, items_plug. cbn [items].
    rewrite !fmap_app, fmap_cons, <- !app_assoc. done. }
  assert (ids t' = (items_before c ++ items l).*1
                   ++ (items r ++ items_after c).*1) as Hids'.
  { rewrite Ht', ids_items, items_plug, items_spliced.
    rewrite !fmap_app, <- !app_assoc. done. }
  rewrite Hids, Hids'. split; [done|]. split; [done|].
  pose proof (rep_nodup _ _ Hrep) as Hnd. rewrite Hids in Hnd.
  assert (z ∉ (items_before c ++ items l).*1
              ++ (items r ++ items_after c).*1) as Hz.
  { apply NoDup_app in Hnd as (_ & H1 & H2).
    apply NoDup_cons in H2 as [H2 _]. intros [?|?]%elem_of_app; [|done].
    apply (H1 z); [done|]. by left. }
  split; [done|]. split.
  { intros Hin. apply (in_tree_ids b' t' z) in Hin; [|apply Hrep'..].
    by rewrite Hids' in Hin. }
  split.
  - rewrite <- !fmap_app.
    rewrite (keys_of_fst b'), (keys_of_fst b); [done|..].
    + intros i x Hi. eapply items_lookup; [apply (rep_shaped _ _ Hrep)|].
      rewrite <- Hplug, items_plug. simpl. set_solver.
    + intros i x Hi. eapply items_lookup; [apply (rep_shaped _ _ Hrep')|].
      rewrite Ht', items_plug, items_spliced. set_solver.
  - rewrite (search_spec _ _ k Hrep'). do 2 f_equal.
    destruct (descend_hit k t') as [->|(l' & i' & r' & Hnode')]; [done|].
    apply descend_present in Hnode'.
    apply elements_delete_tree in Hnode'; [|apply Hrep]. by destruct Hnode'.
Qed.

Lemma delete_unlinks_one_node_witness :
  ∃ z b' n1 n2 path,
    delete sample 8 = Ok (Some z, b')
    ∧ nodes sample = Ok (n1 ++ z :: n2) ∧ nodes b' = Ok (n1 ++ n2)
    ∧ (z ∉ n1 ++ n2) ∧ ¬ in_tree b' z
    ∧ keys_of b' (n1 ++ n2) = keys_of sample (n1 ++ n2)
    ∧ search b' 8 = Ok (path, None).
Proof.
  apply (delete_unlinks_one_node sample sample_tree 8 [3; 8; 10]).
  - solve_represents.
  - reflexivity.
  - set_solver.
Defined.

(** ** What no operation does: node keys and node objects *)

Lemma bind_Ok {A B} (m : result A) (k : A → result B) r :
  m ≫= k = Ok r → ∃ a, m = Ok a ∧ k a = Ok r.
Proof. destruct m as [a|f]; [by exists a|done]. Qed.

Lemma load_Ok b x n : load b x = Ok n → ∃ i, x = Some i ∧ heap b !! i = Some n.
Proof.
  unfold load. destruct x as [i|]; [|done].
  destruct (heap b !! i) eqn:Hi; [|done]. intros [= <-]. by exists i.
Qed.

Lemma same_objects_refl b : same_objects b b.
Proof. split; [done|]. intros i nd Hi. by exists nd. Qed.

Lemma same_objects_set_root b v : same_objects b (set_root b v).
Proof. split; [done|]. intros i nd Hi. by exists nd. Qed.

Lemma same_objects_trans b1 b2 b3 :
  same_objects b1 b2 → same_objects b2 b3 → same_objects b1 b3.
Proof.
  intros [Hl1 Hk1] [Hl2 Hk2]. split; [congruence|].
  intros i nd Hi. destruct (Hk1 i nd Hi) as (nd' & Hi' & Hk).
  destruct (Hk2 i nd' Hi') as (nd'' & Hi'' & Hk').
  exists nd''. split; [done|congruence].
Qed.

Lemma same_objects_store b (i : nat) n m :
  heap b !! i = Some n → key m = key n → same_objects b (store b i m).
Proof.
  intros Hi Hk. split; [apply length_store|].
  intros j nd Hj. destruct (decide (i = j)) as [->|Hne].
  - rewrite Hi in Hj. injection Hj as <-.
    exists m. split; [by eapply lookup_store_eq|done].
  - exists nd. by rewrite lookup_store_ne.
Qed.

Lemma set_left_same b x v b' : set_left b x v = Ok b' → same_objects b b'.
Proof.
  unfold set_left. intros (n & Hn & H)%bind_Ok.
  apply load_Ok in Hn as (i & -> & Hi). injection H as <-.
  by eapply same_objects_store.
Qed.

Lemma set_right_same b x v b' : set_right b x v = Ok b' → same_objects b b'.
Proof.
  unfold set_right. intros (n & Hn & H)%bind_Ok.
  apply load_Ok in Hn as (i & -> & Hi). injection H as <-.
  by eapply same_objects_store.
Qed.

Lemma set_parent_same b x v b' : set_parent b x v = Ok b' → same_objects b b'.
Proof.
  unfold set_parent. intros (n & Hn & H)%bind_Ok.
  apply load_Ok in Hn as (i & -> & Hi). injection H as <-.
  by eapply same_objects_store.
Qed.

Lemma transplant_same b u v b' : transplant b u v = Ok b' → same_objects b b'.
Proof.
  unfold transplant. intros (nu & _ & H)%bind_Ok.
  apply bind_Ok in H as (b1 & Hb1 & H).
  assert (same_objects b b1) as H1.
  { destruct (parent nu).
    - apply bind_Ok in Hb1 as ([] & _ & Hb1);
        [by eapply set_left_same|by eapply set_right_same].
    - injection Hb1 as <-. apply same_objects_set_root. }
  eapply same_objects_trans; [exact H1|].
  destruct v.
  - apply bind_Ok in H as (nu' & _ & H). by eapply set_parent_same.
  - injection H as <-. apply same_objects_refl.
Qed.

(** X4.  Whatever the state, when [delete] returns it has allocated
    nothing and every node object, the removed one included, still holds
    the key it held: deletion relinks nodes and never copies keys. *)
Theorem delete_keeps_objects b k res b' :
  delete b k = Ok (res, b') → same_objects b b'.
Proof.
  unfold delete. intros ([p z] & _ & H)%bind_Ok.
  destruct z as [z|]; [|injection H as _ <-; apply same_objects_refl].
  apply bind_Ok in H as (nz & _ & H).
  apply bind_Ok in H as (b1 & Hb1 & H). injection H as _ <-.
  destruct (left nz); [destruct (right nz)|].
  - apply bind_Ok in Hb1 as (y & _ & H).
    apply bind_Ok in H as (ny & _ & H).
    apply bind_Ok in H as (b2 & Hb2 & H).
    apply bind_Ok in H as (b4 & Hb4%transplant_same & H).
    apply bind_Ok in H as (nz4 & _ & H).
    apply bind_Ok in H as (b5 & Hb5%set_left_same & H).
    apply bind_Ok in H as (ny5 & _ & H).
    assert (same_objects b b2) as H2.
    { destruct (bool_decide (parent ny = Some z)).
      - injection Hb2 as <-. apply same_objects_refl.
      - apply bind_Ok in Hb2 as (b6 & Hb6%transplant_same & Hb2).
        apply bind_Ok in Hb2 as (nz2 & _ & Hb2).
        apply bind_Ok in Hb2 as (b3 & Hb3%set_right_same & Hb2).
        apply bind_Ok in Hb2 as (ny3 & _ & Hb2).
        eapply same_objects_trans; [exact Hb6|].
        eapply same_objects_trans; [exact Hb3|].
        destruct (right ny3).
        + by eapply set_parent_same.
        + injection Hb2 as <-. apply same_objects_refl. }
    eapply same_objects_trans; [exact H2|].
    eapply same_objects_trans; [exact Hb4|].
    eapply same_objects_trans; [exact Hb5|].
    destruct (left ny5).
    + by eapply set_parent_same.
    + injection H as <-. apply same_objects_refl.
  - by eapply transplant_same.
  - by eapply transplant_same.
Qed.

Lemma delete_keeps_objects_witness :
  ∃ res b', delete sample 8 = Ok (res, b') ∧ same_objects sample b'.
Proof.
  do 2 eexists. split; [vm_compute; reflexivity|].
  eapply (delete_keeps_objects sample 8). vm_compute. reflexivity.
Defined.

(** X5.  Whatever the state, when [insert] returns, every node object
    that existed still holds the key it held; a refused duplicate leaves
    the state as it is, and a successful insert allocates exactly one
    object, the returned node, which holds the inserted key. *)
Theorem insert_keeps_objects b k res b' :
  insert b k = Ok (res, b') →
  keys_kept b b'
  ∧ (res.1 = None → b' = b)
  ∧ (∀ z, res.1 = Some z →
       z = length (heap b) ∧ length (heap b') = S (length (heap b))
       ∧ ∃ nz, heap b' !! z = Some nz ∧ key nz = k).
Proof.
  unfold insert. intros (w & _ & H)%bind_Ok.
  destruct w as [x|y].
  { injection H as <- <-. split; [apply same_objects_refl|]. by split. }
  cbn [alloc] in H. apply bind_Ok in H as (b2 & Hb2 & H).
  injection H as <- <-. cbn [fst].
  set (b1 := mkBST (heap b ++ [mkNode k None None y]) (root b)) in *.
  assert (keys_kept b b1) as H1.
  { intros i nd Hi. exists nd. split; [|done]. by apply lookup_app_l_Some. }
  assert (heap b1 !! length (heap b) = Some (mkNode k None None y)) as Hz.
  { simpl. by rewrite lookup_app_r, Nat.sub_diag by lia. }
  assert (length (heap b1) = S (length (heap b))) as Hlen.
  { simpl. rewrite length_app. simpl. lia. }
  assert (same_objects b1 b2) as [Hl2 Hk2].
  { destruct y.
    - apply bind_Ok in Hb2 as (ny & _ & Hb2).
      destruct (k <? key ny);
        [by eapply set_left_same|by eapply set_right_same].
    - injection Hb2 as <-. apply same_objects_set_root. }
  split; [|split; [done|]].
  - intros i nd Hi. destruct (H1 i nd Hi) as (nd1 & Hi1 & Hk1).
    destruct (Hk2 i nd1 Hi1) as (nd2 & Hi2 & Hk2').
    exists nd2. split; [done|congruence].
  - intros z [= <-]. split; [done|]. split; [congruence|].
    destruct (Hk2 _ _ Hz) as (nz & Hnz & Hkz). by exists nz.
Qed.

Lemma insert_keeps_objects_witness :
  ∃ res b',
    insert sample 5 = Ok (res, b')
    ∧ keys_kept sample b'
    ∧ (res.1 = None → b' = sample)
    ∧ (∀ z, res.1 = Some z →
         z = length (heap sample) ∧ length (heap b') = S (length (heap sample))
         ∧ ∃ nz, heap b' !! z = Some nz ∧ key nz = 5).
Proof.
  do 2 eexists. split; [vm_compute; reflexivity|].
  eapply (insert_keeps_objects sample 5). vm_compute. reflexivity.
Defined.

(** ** Depth *)

Lemma height_plug_step c s s' :
  (height s ≤ height s' ≤ S (height s))%nat →
  (height (plug c s) ≤ height (plug c s') ≤ S (height (plug c s)))%nat.
Proof.
  revert s s'. induction c as [|f c IH]; intros s s' Hs; [done|].
  simpl. apply IH. destruct f; simpl; lia.
Qed.

Lemma height_spliced l z k r :
  (height (spliced l r) ≤ height (Node l z k r)
   ≤ S (height (spliced l r)))%nat.
Proof.
  destruct (spliced_cases l r)
    as [[-> ->]|[(_ & -> & ->)|(_ & _ & cr & y & ky & ry & _ & -> & _ & ->)]].
  - simpl. lia.
  - simpl. lia.
  - pose proof (height_plug_step cr ry (Node Leaf y ky ry)) as H.
    simpl in *. lia.
Qed.

Lemma size_lt_pow_height t : (length (ids t) < 2 ^ height t)%nat.
Proof.
  induction t as [|l IHl i k r IHr]; simpl; [lia|].
  rewrite length_app. simpl.
  pose proof (Nat.pow_le_mono_r 2 (height l) (Nat.max (height l) (height r))).
  pose proof (Nat.pow_le_mono_r 2 (height r) (Nat.max (height l) (height r))).
  lia.
Qed.

(** X6.  On a well-formed tree [depth] is 0 exactly for the empty tree,
    is at most the number of nodes, and a tree of depth [d] has fewer than
    [2 ^ d] nodes; the node list and the key list have the same length. *)
Theorem depth_and_size b t :
  represents b t →
  ∃ d ns ks,
    depth b = Ok d ∧ nodes b = Ok ns ∧ inorder b = Ok ks
    ∧ length ns = length ks
    ∧ (d ≤ length ns)%nat ∧ (length ns < 2 ^ d)%nat
    ∧ (d = 0%nat ↔ root b = None).
Proof.
  intros Hrep. exists (height t), (ids t), (elements t).
  rewrite (depth_spec _ _ Hrep), (nodes_spec _ _ Hrep),
    (inorder_spec _ _ Hrep).
  split; [done|]. split; [done|]. split; [done|].
  split; [by rewrite ids_items, elements_items, !length_fmap|].
  split; [apply height_le_ids|]. split; [apply size_lt_pow_height|].
  rewrite (rep_root _ _ Hrep). by destruct t.
Qed.

Lemma depth_and_size_witness :
  ∃ d ns ks,
    depth sample = Ok d ∧ nodes sample = Ok ns ∧ inorder sample = Ok ks
    ∧ length ns = length ks
    ∧ (d ≤ length ns)%nat ∧ (length ns < 2 ^ d)%nat
    ∧ (d = 0%nat ↔ root sample = None).
Proof. apply (depth_and_size sample sample_tree). solve_represents. Defined.

(** X7.  On a well-formed tree an insert never lowers the depth and
    raises it by at most one; a delete never raises the depth and lowers
    it by at most one. *)
Theorem depth_changes_by_one b t o :
  represents b t →
  ∃ b' d d',
    step b o = Ok b' ∧ depth b = Ok d ∧ depth b' = Ok d'
    ∧ match o with
      | Insert _ => (d ≤ d' ≤ S d)%nat
      | Delete _ => (d' ≤ d ≤ S d')%nat
      end.
Proof.
  intros Hrep. rewrite (depth_spec _ _ Hrep).
  destruct o as [k|k]; simpl.
  - destruct (insert_spec b t k Hrep) as (res & b' & -> & Hrep').
    exists b', (height t), (height (insert_tree (length (heap b)) k t)).
    rewrite (depth_spec _ _ Hrep'). split_and!; [done..| |];
      unfold insert_tree; pose proof (descend_plug k t) as Hp;
      destruct (descend k t) as [c [|]]; simpl in Hp; try lia;
      rewrite <- Hp;
      pose proof (height_plug_step c Leaf (Node Leaf (length (heap b)) k Leaf));
      simpl in *; lia.
  - destruct (delete_spec b t k Hrep) as (res & b' & -> & Hrep').
    exists b', (height t), (height (delete_tree k t)).
    rewrite (depth_spec _ _ Hrep'). split_and!; [done..| |];
      unfold delete_tree; pose proof (descend_plug k t) as Hp;
      destruct (descend k t) as [c [|l z x r]]; simpl in Hp; try lia;
      rewrite <- Hp;
      pose proof (height_plug_step c (spliced l r) (Node l z x r)
                    (height_spliced l z x r));
      lia.
Qed.

Lemma depth_changes_by_one_witness :
  ∃ b' d d',
    step sample (Delete 3) = Ok b' ∧ depth sample = Ok d ∧ depth b' = Ok d'
    ∧ (d' ≤ d ≤ S d')%nat.
Proof.
  apply (depth_changes_by_one sample sample_tree (Delete 3)).
  solve_represents.
Defined.

(** ** [nodes], [minimum] and the child tests *)

(** X8.  On a well-formed tree [nodes] lists every node of the tree once,
    in the order of [inorder]: reading the keys of the listed nodes gives
    the [inorder] list, and both are empty exactly when the root is. *)
Theorem nodes_match_inorder b t :
  represents b t →
  ∃ ns ks,
    nodes b = Ok ns ∧ inorder b = Ok ks
    ∧ keys_of b ns = ks ∧ NoDup ns
    ∧ (∀ i, i ∈ ns ↔ in_tree b i)
    ∧ (ns = [] ↔ root b = None).
Proof.
  intros Hrep. exists (ids t), (elements t).
  rewrite (nodes_spec _ _ Hrep), (inorder_spec _ _ Hrep).
  split; [done|]. split; [done|].
  split; [by eapply keys_of_ids, Hrep|]. split; [apply Hrep|].
  split.
  - intros i. symmetry. apply in_tree_ids; apply Hrep.
  - rewrite (rep_root _ _ Hrep). destruct t as [|l i k r]; [done|].
    simpl. split; [|done]. by destruct (ids l).
Qed.

Lemma nodes_match_inorder_witness :
  ∃ ns ks,
    nodes sample = Ok ns ∧ inorder sample = Ok ks
    ∧ keys_of sample ns = ks ∧ NoDup ns
    ∧ (∀ i, i ∈ ns ↔ in_tree sample i)
    ∧ (ns = [] ↔ root sample = None).
Proof. apply (nodes_match_inorder sample sample_tree). solve_represents. Defined.

Lemma subtree_sorted_at h par t n :
  shaped h par t → StronglySorted Z.lt (elements t) → n ∈ ids t →
  ∃ par' l k r, shaped h par' (Node l n k r)
    ∧ (height (Node l n k r) ≤ height t)%nat
    ∧ StronglySorted Z.lt (elements (Node l n k r)).
Proof.
  revert par. induction t as [|l IHl i k r IHr]; intros par Hs Hso Hn.
  - by apply elem_of_nil in Hn.
  - pose proof Hs as (Hi & Hl & Hr). simpl in Hn.
    pose proof Hso as Hso'. simpl in Hso'.
    apply StronglySorted_app in Hso' as (_ & Hsl & Hsr).
    apply StronglySorted_cons in Hsr as [_ Hsr].
    apply elem_of_app in Hn as [Hn|Hn];
      [|apply elem_of_cons in Hn as [->|Hn]].
    + destruct (IHl _ Hl Hsl Hn) as (p & a & x & d & ? & ? & ?).
      exists p, a, x, d. split; [done|]. split; [simpl in *; lia|done].
    + by exists par, l, k, r.
    + destruct (IHr _ Hr Hsr Hn) as (p & a & x & d & ? & ? & ?).
      exists p, a, x, d. split; [done|]. split; [simpl in *; lia|done].
Qed.

(** X9.  On a well-formed tree, [minimum] started at any node [x] of the
    tree returns a node [y] of the subtree of [x] that has no left child
    and whose key is the smallest key of that subtree. *)
Theorem minimum_is_smallest b t x :
  represents b t → in_tree b x →
  ∃ y ny,
    minimum b (Some x) = Ok (Some y)
    ∧ reach (heap b) (Some x) y
    ∧ heap b !! y = Some ny ∧ left ny = None
    ∧ ∀ m md, reach (heap b) (Some x) m → heap b !! m = Some md →
        key ny ≤ key md.
Proof.
  intros Hrep Hx. pose proof (represents_fuel _ _ Hrep) as Hfuel.
  apply (in_tree_ids b t x (rep_root _ _ Hrep) (rep_shaped _ _ Hrep)) in Hx.
  destruct (subtree_sorted_at _ _ _ _ (rep_shaped _ _ Hrep)
              (rep_sorted _ _ Hrep) Hx)
    as (p & l & k & r & Hs & Hh & Hso).
  set (s := Node l x k r) in *.
  destruct (leftmost_node s) as (y & ky & ry & Hlm); [done|].
  pose proof (leftmost_plug s) as Hplug. rewrite Hlm in Hplug.
  pose proof (leftmost_before s) as Hbef.
  set (cr := (leftmost s).1) in *.
  assert (y ∈ ids s) as Hy.
  { rewrite <- Hplug. apply elem_of_ids_plug. left. simpl. set_solver. }
  pose proof Hs as Hs'. rewrite <- Hplug in Hs'.
  apply shaped_plug in Hs' as [_ (Hny & _)].
  eexists y, _. split.
  { unfold minimum. change (Some x) with (ptr s).
    rewrite (minimum_loop_spec b s _ p); [by rewrite Hlm|done|done|lia]. }
  split; [by apply (ids_reach _ _ _ _ Hs Hy)|].
  split; [exact Hny|]. split; [done|].
  intros m md Hm Hmd. cbn [key].
  assert (key md ∈ elements s) as Hin.
  { eapply key_in_elements; [exact Hs| |done]. by eapply reach_ids. }
  rewrite <- Hplug, elements_plug, Hbef in Hin, Hso. simpl in Hin, Hso.
  apply StronglySorted_cons in Hso as [Hall _].
  rewrite Forall_forall in Hall.
  apply elem_of_cons in Hin as [->|Hin]; [lia|].
  specialize (Hall _ Hin). lia.
Qed.

Lemma minimum_is_smallest_witness :
  ∃ y ny,
    minimum sample (Some 0%nat) = Ok (Some y)
    ∧ reach (heap sample) (Some 0%nat) y
    ∧ heap sample !! y = Some ny ∧ left ny = None
    ∧ ∀ m md, reach (heap sample) (Some 0%nat) m →
        heap sample !! m = Some md → key ny ≤ key md.
Proof.
  apply (minimum_is_smallest sample sample_tree 0%nat).
  - solve_represents.
  - constructor.
Defined.

Lemma ids_position t n :
  n ∈ ids t → ∃ c l k r, t = plug c (Node l n k r).
Proof.
  induction t as [|l IHl i k r IHr]; intros Hn.
  - by apply elem_of_nil in Hn.
  - simpl in Hn. apply elem_of_app in Hn as [Hn|Hn];
      [|apply elem_of_cons in Hn as [->|Hn]].
    + destruct (IHl Hn) as (c & a & x & d & ->).
      exists (c ++ [InLeft i k r]), a, x, d. by rewrite plug_app.
    + by exists [], l, k, r.
    + destruct (IHr Hn) as (c & a & x & d & ->).
      exists (c ++ [InRight l i k]), a, x, d. by rewrite plug_app.
Qed.

Arguments is_right_child : simpl never.

Lemma is_right_child_frame b f c u nu hp :
  heap b !! u = Some nu → parent nu = Some (frame_id f) →
  heap b !! frame_id f = Some (frame_node f (Some u) hp) →
  NoDup (u :: ctx_ids (f :: c)) →
  is_right_child b (Some u)
  = Ok (match f with InLeft _ _ _ => false | InRight _ _ _ => true end).
Proof.
  intros Hu Hpar Hf Hnd. unfold is_right_child.
  rewrite (load_Some _ _ _ Hu), ok_bind, Hpar, (load_Some _ _ _ Hf), ok_bind.
  destruct f as [i k r|l i k]; simpl.
  - rewrite bool_decide_eq_false_2; [done|].
    intros Hl%ptr_in_ids. apply NoDup_cons in Hnd as [Hnin _].
    apply Hnin. simpl. set_solver.
  - by rewrite bool_decide_eq_true_2.
Qed.

(** X10.  For every node [n] of a well-formed tree: the root has no parent
    and is neither a left nor a right child; any other node is exactly one
    of the two, a left child when its key is smaller than its parent's
    and a right child when it is larger. *)
Theorem child_side b t n :
  represents b t → in_tree b n →
  ∃ nd, heap b !! n = Some nd
    ∧ match parent nd with
      | None =>
          root b = Some n
          ∧ is_left_child b (Some n) = Ok false
          ∧ is_right_child b (Some n) = Ok false
      | Some p =>
          root b ≠ Some n
          ∧ ∃ np, heap b !! p = Some np ∧ key nd ≠ key np
            ∧ is_left_child b (Some n) = Ok (bool_decide (key nd < key np))
            ∧ is_right_child b (Some n) = Ok (bool_decide (key np < key nd))
      end.
Proof.
  intros Hrep Hn.
  apply (in_tree_ids b t n (rep_root _ _ Hrep) (rep_shaped _ _ Hrep)) in Hn.
  destruct (ids_position t n Hn) as (c & l & k & r & Ht).
  destruct Hrep as [Hroot Hs Hnd Hso]. subst t.
  apply shaped_plug in Hs as [Hctx (Hnd' & _)]. cbn [ptr] in Hctx.
  apply NoDup_ids_plug in Hnd as (Hndn & Hdisj & Hndc).
  assert (NoDup (n :: ctx_ids c)) as Hndu.
  { apply NoDup_cons. split; [|done]. apply Hdisj. simpl. set_solver. }
  eexists. split; [exact Hnd'|]. cbn [parent key].
  destruct c as [|f c]; cbn [hole_parent].
  - split; [done|]. unfold is_left_child, is_right_child.
    by rewrite (load_Some _ _ _ Hnd').
  - pose proof Hctx as (Hf & _).
    rewrite (is_left_child_frame b f c n _ _ Hnd' eq_refl Hf Hndu).
    rewrite (is_right_child_frame b f c n _ _ Hnd' eq_refl Hf Hndu).
    split.
    { rewrite Hroot. intros Hp%ptr_plug_in_ctx.
      by apply NoDup_cons in Hndu as [? _]. }
    eexists. split; [exact Hf|].
    rewrite elements_plug in Hso.
    destruct f as [i x r'|l' i x]; simpl in Hso |- *.
    + assert (k < x) as Hlt.
      { apply StronglySorted_app in Hso as (_ & _ & Hso).
        eapply (StronglySorted_app_1_elem_of _ _ _ k x Hso); set_solver. }
      rewrite bool_decide_eq_true_2, bool_decide_eq_false_2 by lia.
      split; [lia|done].
    + assert (x < k) as Hlt.
      { eapply (StronglySorted_app_1_elem_of _ _ _ x k Hso); set_solver. }
      rewrite bool_decide_eq_false_2, bool_decide_eq_true_2 by lia.
      split; [lia|done].
Qed.

Lemma child_side_witness :
  ∃ nd, heap sample !! 1%nat = Some nd
    ∧ match parent nd with
      | None =>
          root sample = Some 1%nat
          ∧ is_left_child sample (Some 1%nat) = Ok false
          ∧ is_right_child sample (Some 1%nat) = Ok false
      | Some p =>
          root sample ≠ Some 1%nat
          ∧ ∃ np, heap sample !! p = Some np ∧ key nd ≠ key np
            ∧ is_left_child sample (Some 1%nat)
              = Ok (bool_decide (key nd < key np))
            ∧ is_right_child sample (Some 1%nat)
              = Ok (bool_decide (key np < key nd))
      end.
Proof.
  apply (child_side sample sample_tree 1%nat).
  - solve_represents.
  - eapply reach_left; [reflexivity|]. constructor.
Defined.

(** ** [clear] and what follows it *)


(** X12.  On a well-formed tree the path returned by [search] consists of
    nodes of the tree and is never longer than [depth]. *)
Theorem search_path_within_depth b t k :
  represents b t →
  ∃ path found d,
    search b k = Ok (path, found) ∧ depth b = Ok d
    ∧ (length path ≤ d)%nat
    ∧ ∀ n, n ∈ path → in_tree b n.
Proof.
  intros Hrep. exists (trail k t), (ptr (descend k t).2), (height t).
  rewrite (search_spec _ _ k Hrep), (depth_spec _ _ Hrep).
  split; [done|]. split; [done|]. split.
  - clear Hrep. induction t as [|l IHl i x r IHr]; simpl; [lia|].
    destruct (k =? x); [simpl; lia|]. destruct (k <? x); lia.
  - intros n Hn.
    apply (in_tree_ids b t n (rep_root _ _ Hrep) (rep_shaped _ _ Hrep)).
    clear Hrep. induction t as [|l IHl i x r IHr]; simpl in *.
    + by apply elem_of_nil in Hn.
    + apply elem_of_cons in Hn as [->|Hn]; [set_solver|].
      destruct (k =? x); [by apply elem_of_nil in Hn|].
      destruct (k <? x); set_solver.
Qed.

Lemma search_path_within_depth_witness :
  ∃ path found d,
    search sample 9 = Ok (path, found) ∧ depth sample = Ok d
    ∧ (length path ≤ d)%nat
    ∧ ∀ n, n ∈ path → in_tree sample n.
Proof.
  apply (search_path_within_depth sample sample_tree 9). solve_represents.
Defined.

(** ** Repeating an operation *)

(** X13.  On a well-formed tree, inserting the same key a second time is
    refused and changes nothing, and deleting the same key a second time
    finds nothing and changes nothing. *)
Theorem repeated_operation_is_noop b t k :
  represents b t →
  (∃ r1 b1 x, insert b k = Ok (r1, b1)
     ∧ insert b1 k = Ok ((None, Some x), b1))
  ∧ (∃ r1 b1, delete b k = Ok (r1, b1) ∧ delete b1 k = Ok (None, b1)).
Proof.
  intros Hrep. split.
  - destruct (insert_spec b t k Hrep) as (r1 & b1 & Hins & Hrep1).
    set (t1 := insert_tree (length (heap b)) k t) in *.
    assert (k ∈ elements t1) as Hk by (apply elements_insert_tree; by left).
    destruct (descend_found k t1 (rep_sorted _ _ Hrep1) Hk)
      as (l & x & r & Hnode).
    exists r1, b1, x. split; [done|]. by eapply insert_dup.
  - destruct (delete_spec b t k Hrep) as (r1 & b1 & Hdel & Hrep1).
    exists r1, b1. split; [done|]. eapply delete_absent; [done|].
    destruct (descend_hit k (delete_tree k t)) as [?|(l & i & r & Hnode)];
      [done|].
    apply descend_present in Hnode.
    apply elements_delete_tree in Hnode; [|apply Hrep]. by destruct Hnode.
Qed.

Lemma repeated_operation_is_noop_witness :
  (∃ r1 b1 x, insert sample 5 = Ok (r1, b1)
     ∧ insert b1 5 = Ok ((None, Some x), b1))
  ∧ (∃ r1 b1, delete sample 8 = Ok (r1, b1) ∧ delete b1 8 = Ok (None, b1)).
Proof.
  split.
  - apply (repeated_operation_is_noop sample sample_tree 5). solve_represents.
  - apply (repeated_operation_is_noop sample sample_tree 8). solve_represents.
Defined.

(** ** No rebalancing *)

Lemma insert_tree_right_spine z k t :
  right_spine t → Forall (fun a => a < k) (elements t) →
  right_spine (insert_tree z k t)
  ∧ elements (insert_tree z k t) = elements t ++ [k]
  ∧ height (insert_tree z k t) = S (height t).
Proof.
  unfold insert_tree.
  induction t as [|l _ i x r IHr]; intros Hsp Hall; [done|].
  destruct Hsp as [-> Hsp]. simpl in Hall.
  apply Forall_cons in Hall as [Hx Hall]. specialize (IHr Hsp Hall).
  simpl. destruct (Z.eqb_spec k x); [lia|]. destruct (Z.ltb_spec k x); [lia|].
  destruct (descend k r) as [c [|]] eqn:Hd.
  - rewrite plug_app. simpl. destruct IHr as (? & -> & ->). done.
  - exfalso. destruct IHr as (_ & _ & IHr). lia.
Qed.

Lemma run_right_spine ks : ∀ b t,
  represents b t → right_spine t →
  StronglySorted Z.lt (elements t ++ ks) →
  ∃ b' t', run b (Insert <$> ks) = Ok b' ∧ represents b' t'
    ∧ height t' = (height t + length ks)%nat.
Proof.
  induction ks as [|k ks IH]; intros b t Hrep Hsp Hso.
  - exists b, t. simpl. split; [done|]. split; [done|lia].
  - destruct (insert_spec b t k Hrep) as (res & b1 & Hins & Hrep1).
    destruct (insert_tree_right_spine (length (heap b)) k t Hsp)
      as (Hsp1 & Hel1 & Hh1).
    { apply Forall_forall. intros a Ha.
      eapply (StronglySorted_app_1_elem_of _ _ _ a k Hso); [done|by left]. }
    destruct (IH b1 _ Hrep1 Hsp1) as (b' & t' & Hrun & Hrep' & Hh').
    { rewrite Hel1, <- app_assoc. done. }
    exists b', t'. simpl. rewrite Hins, !ok_bind. split; [done|].
    split; [done|]. simpl. lia.
Qed.

(** X14.  The tree is never rebalanced: inserting strictly ascending keys
    into the empty tree gives a tree whose depth is the number of keys. *)
Theorem ascending_inserts_degenerate (ks : list Z) :
  StronglySorted Z.lt ks →
  ∃ b, run empty (Insert <$> ks) = Ok b ∧ depth b = Ok (length ks).
Proof.
  intros Hso.
  destruct (run_right_spine ks empty Leaf represents_empty I Hso)
    as (b & t & Hrun & Hrep & Hh).
  exists b. split; [done|]. by rewrite (depth_spec _ _ Hrep), Hh.
Qed.

Lemma ascending_inserts_degenerate_witness :
  ∃ b, run empty (Insert <$> [1; 2; 3; 4]) = Ok b
    ∧ depth b = Ok (length [1; 2; 3; 4]).
Proof.
  apply (ascending_inserts_degenerate [1; 2; 3; 4]).
  repeat (apply SSorted_cons; [|repeat constructor; lia]). apply SSorted_nil.
Defined.

(** ** The layout bookkeeping *)

Lemma layout_dfs_spec b t : ∀ fuel par d st,
  shaped (heap b) par t → (height t ≤ fuel)%nat →
  layout_dfs fuel b (ptr t) d st = Ok (lay t d st).
Proof.
  induction t as [|l IHl i k r IHr]; intros fuel par d st Hs Hf.
  - by destruct fuel.
  - destruct fuel as [|fuel]; [simpl in Hf; lia|].
    cbn [ptr layout_dfs]. rewrite (load_shaped _ _ _ _ _ _ Hs), ok_bind.
    destruct Hs as (_ & Hl & Hr). simpl in Hf. cbn [left right].
    rewrite (IHl fuel (Some i)), ok_bind; [|done|lia].
    rewrite (IHr fuel (Some i)); [done|done|lia].
Qed.

Lemma lay_index t : ∀ d st,
  index (lay t d st) = (index st + length (ids t))%nat.
Proof.
  induction t as [|l IHl i k r IHr]; intros d st; simpl; [lia|].
  rewrite IHr, length_app. simpl. rewrite IHl. simpl. lia.
Qed.

Lemma lay_x_other t j : ∀ d st,
  j ∉ ids t → x_index (lay t d st) !! j = x_index st !! j.
Proof.
  induction t as [|l IHl i k r IHr]; intros d st Hj; simpl; [done|].
  simpl in Hj. rewrite IHr by set_solver. simpl.
  rewrite lookup_insert_ne by set_solver. rewrite IHl by set_solver. done.
Qed.

Lemma lay_depth_other t j : ∀ d st,
  j ∉ ids t → depth_map (lay t d st) !! j = depth_map st !! j.
Proof.
  induction t as [|l IHl i k r IHr]; intros d st Hj; simpl; [done|].
  simpl in Hj. rewrite IHr by set_solver. simpl.
  rewrite IHl by set_solver. simpl.
  rewrite lookup_insert_ne by set_solver. done.
Qed.

Lemma lay_x_rank t : ∀ d st p j,
  NoDup (ids t) → ids t !! p = Some j →
  x_index (lay t d st) !! j = Some (index st + p)%nat.
Proof.
  induction t as [|l IHl i k r IHr]; intros d st p j Hnd Hp; [done|].
  apply NoDup_ids_node in Hnd as (Hndl & Hndr & Hil & Hir & Hlr).
  simpl in Hp |- *. apply lookup_app_Some in Hp as [Hp|[Hlen Hp]].
  - assert (j ∈ ids l) as Hj by by eapply list_elem_of_lookup_2.
    rewrite lay_x_other by by apply Hlr. simpl.
    rewrite lookup_insert_ne by (intros ->; done).
    by rewrite (IHl (S d) _ p j Hndl Hp).
  - destruct (p - length (ids l))%nat as [|q] eqn:Hq; simpl in Hp.
    + injection Hp as <-. rewrite lay_x_other by done. simpl.
      rewrite lookup_insert_eq, lay_index. simpl. f_equal. lia.
    + rewrite (IHr _ _ q j Hndr Hp). simpl. rewrite lay_index. simpl.
      f_equal. lia.
Qed.

Lemma lay_size t : ∀ d st,
  NoDup (ids t) → (∀ j, j ∈ ids t → x_index st !! j = None) →
  size (x_index (lay t d st)) = (size (x_index st) + length (ids t))%nat.
Proof.
  induction t as [|l IHl i k r IHr]; intros d st Hnd Hfresh; simpl; [lia|].
  apply NoDup_ids_node in Hnd as (Hndl & Hndr & Hil & Hir & Hlr).
  rewrite IHr; [|done|].
  - simpl. rewrite map_size_insert_None.
    + rewrite IHl; [|done|intros j Hj; apply Hfresh; simpl; set_solver].
      simpl. rewrite length_app. simpl. lia.
    + rewrite lay_x_other by done. simpl. apply Hfresh. simpl. set_solver.
  - intros j Hj. simpl.
    rewrite lookup_insert_ne by (intros ->; done).
    rewrite lay_x_other by (intros ?; by eapply Hlr). simpl.
    apply Hfresh. simpl. set_solver.
Qed.

Lemma items_ids t j k : (j, k) ∈ items t → j ∈ ids t.
Proof.
  intros Hin. rewrite ids_items. apply list_elem_of_fmap. by exists (j, k).
Qed.

Lemma items_elements t j k : (j, k) ∈ items t → k ∈ elements t.
Proof.
  intros Hin. rewrite elements_items. apply list_elem_of_fmap. by exists (j, k).
Qed.

Lemma lay_depth_level t : ∀ d st j kj,
  NoDup (ids t) → StronglySorted Z.lt (elements t) → (j, kj) ∈ items t →
  depth_map (lay t d st) !! j = Some (d + length (trail kj t) - 1)%nat.
Proof.
  induction t as [|l IHl i k r IHr]; intros d st j kj Hnd Hso Hin.
  - by apply elem_of_nil in Hin.
  - apply NoDup_ids_node in Hnd as (Hndl & Hndr & Hil & Hir & Hlr).
    simpl in Hso. apply StronglySorted_app in Hso as (Hlk & Hsl & Hkr).
    apply StronglySorted_cons in Hkr as [Hkr Hsr].
    rewrite Forall_forall in Hkr.
    simpl in Hin |- *. apply elem_of_app in Hin as [Hin|Hin];
      [|apply elem_of_cons in Hin as [[= -> ->]|Hin]].
    + pose proof (items_ids _ _ _ Hin) as Hj.
      assert (kj < k) as Hlt.
      { apply Hlk; [by eapply items_elements|by left]. }
      destruct (Z.eqb_spec kj k); [lia|]. destruct (Z.ltb_spec kj k); [|lia].
      rewrite lay_depth_other by by apply Hlr. simpl.
      rewrite (IHl _ _ j kj Hndl Hsl Hin). simpl. f_equal.
      destruct l; [by apply elem_of_nil in Hin|]. simpl. lia.
    + rewrite Z.eqb_refl. rewrite lay_depth_other by done. simpl.
      rewrite lay_depth_other by done. simpl.
      rewrite lookup_insert_eq. f_equal. lia.
    + pose proof (items_ids _ _ _ Hin) as Hj.
      assert (k < kj) as Hlt by (apply Hkr; by eapply items_elements).
      destruct (Z.eqb_spec kj k); [lia|]. destruct (Z.ltb_spec kj k); [lia|].
      rewrite (IHr _ _ j kj Hndr Hsr Hin). simpl. f_equal.
      destruct r; [by apply elem_of_nil in Hin|]. simpl. lia.
Qed.

Lemma lay_deepest t : ∀ d st,
  NoDup (ids t) → t ≠ Leaf →
  ∃ j, j ∈ ids t ∧ depth_map (lay t d st) !! j = Some (d + height t - 1)%nat.
Proof.
  induction t as [|l IHl i k r IHr]; intros d st Hnd Hne; [done|].
  apply NoDup_ids_node in Hnd as (Hndl & Hndr & Hil & Hir & Hlr).
  destruct (decide (height l = 0%nat ∧ height r = 0%nat)) as [[H0l H0r]|Hh].
  - exists i. split; [simpl; set_solver|]. simpl.
    rewrite lay_depth_other by done. simpl.
    rewrite lay_depth_other by done. simpl.
    rewrite lookup_insert_eq, H0l, H0r. f_equal. simpl. lia.
  - destruct (decide (height r ≤ height l)%nat) as [Hle|Hgt].
    + assert (l ≠ Leaf) as Hl by (intros ->; simpl in *; lia).
      destruct (IHl (S d) (mkLayout (index st) (x_index st)
                             (<[i := d]> (depth_map st))) Hndl Hl)
        as (j & Hj & Hd).
      exists j. split; [simpl; set_solver|]. simpl.
      rewrite lay_depth_other by by apply Hlr. simpl.
      rewrite Hd. f_equal. lia.
    + assert (r ≠ Leaf) as Hr by (intros ->; simpl in *; lia).
      cbn [lay].
      match goal with |- context [lay r (S d) ?s] =>
        destruct (IHr (S d) s Hndr Hr) as (j & Hj & Hd)
      end.
      exists j. split; [simpl; set_solver|]. simpl.
      rewrite Hd. f_equal. lia.
Qed.

(** X15.  On a well-formed tree the [dfs] of [compute_layout] gives every
    node of the tree, and nothing else, an [x_index]: its position in the
    [nodes] list, so the horizontal order of the nodes is their key order;
    [index] ends as the number of nodes, which is also the number of
    entries of [x_index]. *)
Theorem layout_x_index_is_rank b t :
  represents b t →
  ∃ st ns,
    compute_layout_dfs b = Ok st ∧ nodes b = Ok ns
    ∧ index st = length ns ∧ size (x_index st) = length ns
    ∧ ∀ p n, x_index st !! n = Some p ↔ ns !! p = Some n.
Proof.
  intros Hrep. exists (lay t 0 (mkLayout 0 ∅ ∅)), (ids t).
  unfold compute_layout_dfs. rewrite (rep_root _ _ Hrep).
  rewrite (layout_dfs_spec b t _ None 0 _ (rep_shaped _ _ Hrep)
             (represents_fuel _ _ Hrep)).
  rewrite (nodes_spec _ _ Hrep). split; [done|]. split; [done|].
  split; [by rewrite lay_index|].
  split; [by rewrite lay_size; [|apply Hrep|]|].
  intros p n. split.
  - intros Hx. destruct (decide (n ∈ ids t)) as [Hn|Hn].
    + apply list_elem_of_lookup in Hn as [q Hq].
      rewrite (lay_x_rank t 0 _ q n (rep_nodup _ _ Hrep) Hq) in Hx.
      simpl in Hx. by injection Hx as <-.
    + rewrite lay_x_other in Hx by done. done.
  - intros Hp. by rewrite (lay_x_rank t 0 _ p n (rep_nodup _ _ Hrep) Hp).
Qed.

Lemma layout_x_index_is_rank_witness :
  ∃ st ns,
    compute_layout_dfs sample = Ok st ∧ nodes sample = Ok ns
    ∧ index st = length ns ∧ size (x_index st) = length ns
    ∧ ∀ p n, x_index st !! n = Some p ↔ ns !! p = Some n.
Proof.
  apply (layout_x_index_is_rank sample sample_tree). solve_represents.
Defined.

(** X16.  On a well-formed tree the [depth] dictionary of the [dfs] of
    [compute_layout] holds exactly the nodes of the tree; a node's entry
    is the number of edges on the search path to its key, every entry is
    smaller than [depth()], and on a non-empty tree some entry is
    [depth() - 1]. *)
Theorem layout_depth_is_level b t :
  represents b t →
  ∃ st dp,
    compute_layout_dfs b = Ok st ∧ depth b = Ok dp
    ∧ (∀ n nd, in_tree b n → heap b !! n = Some nd →
         ∃ path, search b (key nd) = Ok (path, Some n)
           ∧ depth_map st !! n = Some (length path - 1)%nat)
    ∧ (∀ n d, depth_map st !! n = Some d → in_tree b n ∧ (d < dp)%nat)
    ∧ (root b ≠ None → ∃ n, depth_map st !! n = Some (dp - 1)%nat).
Proof.
  intros Hrep. exists (lay t 0 (mkLayout 0 ∅ ∅)), (height t).
  unfold compute_layout_dfs. rewrite (rep_root _ _ Hrep).
  rewrite (layout_dfs_spec b t _ None 0 _ (rep_shaped _ _ Hrep)
             (represents_fuel _ _ Hrep)).
  rewrite (depth_spec _ _ Hrep). split; [done|]. split; [done|].
  assert (∀ n nd, n ∈ ids t → heap b !! n = Some nd →
            (n, key nd) ∈ items t ∧ ptr (descend (key nd) t).2 = Some n)
    as Hitem.
  { intros n nd Hn Hnd.
    assert (key nd ∈ elements t) as Hk
      by (eapply key_in_elements; [apply Hrep|done..]).
    destruct (descend_found _ _ (rep_sorted _ _ Hrep) Hk)
      as (l & i & r & Hnode).
    pose proof (descend_plug (key nd) t) as Hplug. rewrite Hnode in Hplug.
    pose proof (rep_shaped _ _ Hrep) as Hs. rewrite <- Hplug in Hs.
    apply shaped_plug in Hs as [_ (Hi & _)].
    assert (i ∈ ids t) as Hi'.
    { rewrite <- Hplug. apply elem_of_ids_plug. left. simpl. set_solver. }
    assert (i = n) as ->.
    { eapply (key_inj _ _ _ i n); [apply Hrep|apply Hrep|done..]. }
    rewrite Hnode. split; [|done].
    rewrite <- Hplug, items_plug. simpl. set_solver. }
  split; [|split].
  - intros n nd Hn Hnd.
    apply (in_tree_ids b t n (rep_root _ _ Hrep) (rep_shaped _ _ Hrep)) in Hn.
    destruct (Hitem n nd Hn Hnd) as [Hin Hfound].
    exists (trail (key nd) t). rewrite (search_spec _ _ _ Hrep), Hfound.
    split; [done|].
    by rewrite (lay_depth_level t 0 _ n (key nd) (rep_nodup _ _ Hrep)
                  (rep_sorted _ _ Hrep) Hin).
  - intros n d Hd. destruct (decide (n ∈ ids t)) as [Hn|Hn].
    + split; [by eapply in_tree_ids; [apply Hrep..|]|].
      destruct (shaped_lookup _ _ _ _ (rep_shaped _ _ Hrep) Hn) as [nd Hnd].
      destruct (Hitem n nd Hn Hnd) as [Hin _].
      rewrite (lay_depth_level t 0 _ n (key nd) (rep_nodup _ _ Hrep)
                 (rep_sorted _ _ Hrep) Hin) in Hd.
      injection Hd as <-.
      assert (0 < length (trail (key nd) t) ≤ height t)%nat; [|lia].
      clear -Hn. split.
      * destruct t; [by apply elem_of_nil in Hn|simpl; lia].
      * clear Hn. induction t as [|l IHl i x r IHr]; simpl; [lia|].
        destruct (key nd =? x); [simpl; lia|].
        destruct (key nd <? x); lia.
    + rewrite lay_depth_other in Hd by done. done.
  - intros Hroot.
    destruct (lay_deepest t 0 (mkLayout 0 ∅ ∅) (rep_nodup _ _ Hrep))
      as (j & _ & Hd); [by destruct t|].
    by exists j.
Qed.

Lemma layout_depth_is_level_witness :
  ∃ st dp,
    compute_layout_dfs sample = Ok st ∧ depth sample = Ok dp
    ∧ (∀ n nd, in_tree sample n → heap sample !! n = Some nd →
         ∃ path, search sample (key nd) = Ok (path, Some n)
           ∧ depth_map st !! n = Some (length path - 1)%nat)
    ∧ (∀ n d, depth_map st !! n = Some d → in_tree sample n ∧ (d < dp)%nat)
    ∧ (root sample ≠ None → ∃ n, depth_map st !! n = Some (dp - 1)%nat).
Proof.
  apply (layout_depth_is_level sample sample_tree). solve_represents.
Defined.

(** ** Further compositions *)

Lemma descend_own_key b t n nd :
  represents b t → n ∈ ids t → heap b !! n = Some nd →
  ∃ l r, (descend (key nd) t).2 = Node l n (key nd) r.
Proof.
  intros Hrep Hn Hnd.
  assert (key nd ∈ elements t) as Hk
    by (eapply key_in_elements; [apply Hrep|done..]).
  destruct (descend_found _ _ (rep_sorted _ _ Hrep) Hk) as (l & i & r & Hnode).
  pose proof (descend_plug (key nd) t) as Hplug. rewrite Hnode in Hplug.
  pose proof (rep_shaped _ _ Hrep) as Hs. rewrite <- Hplug in Hs.
  apply shaped_plug in Hs as [_ (Hi & _)].
  assert (i ∈ ids t) as Hi'.
  { rewrite <- Hplug. apply elem_of_ids_plug. left. simpl. set_solver. }
  assert (i = n) as ->.
  { eapply (key_inj _ _ _ i n); [apply Hrep|apply Hrep|done..]. }
  by exists l, r.
Qed.

(** X17.  On a well-formed tree, a search for the key of a node of the
    tree finds that very node; the path starts at the root and ends at the
    node, and the keys read along it end with the key searched. *)
Theorem search_finds_the_node b t n nd :
  represents b t → in_tree b n → heap b !! n = Some nd →
  ∃ path,
    search b (key nd) = Ok (path, Some n)
    ∧ head path = root b ∧ last path = Some n
    ∧ last (keys_of b path) = Some (key nd).
Proof.
  intros Hrep Hn Hnd.
  apply (in_tree_ids b t n (rep_root _ _ Hrep) (rep_shaped _ _ Hrep)) in Hn.
  destruct (descend_own_key b t n nd Hrep Hn Hnd) as (l & r & Hnode).
  exists (trail (key nd) t). rewrite (search_spec _ _ _ Hrep), Hnode.
  split; [done|].
  assert (last (trail (key nd) t) = Some n) as Hlast.
  { rewrite trail_descend, Hnode. simpl. apply last_snoc. }
  split; [|split; [done|]].
  - rewrite (rep_root _ _ Hrep). destruct t; [|done].
    by apply elem_of_nil in Hn.
  - apply last_Some in Hlast as [path' ->]. unfold keys_of.
    rewrite omap_app. cbn [omap list_omap]. rewrite Hnd.
    cbn [fmap option_fmap option_map]. by rewrite last_snoc.
Qed.

Lemma search_finds_the_node_witness :
  ∃ path,
    search sample (key (mkNode 10 None None (Some 0%nat)))
    = Ok (path, Some 2%nat)
    ∧ head path = root sample ∧ last path = Some 2%nat
    ∧ last (keys_of sample path)
      = Some (key (mkNode 10 None None (Some 0%nat))).
Proof.
  apply (search_finds_the_node sample sample_tree 2%nat).
  - solve_represents.
  - eapply reach_right; [reflexivity|]. constructor.
  - reflexivity.
Defined.

(** X18.  On a well-formed tree whose only key is [k], deleting [k]
    leaves the empty tree: the root reference is empty again. *)
Theorem delete_last_key_empties b t k :
  represents b t → inorder b = Ok [k] →
  ∃ z b', delete b k = Ok (Some z, b') ∧ root b' = None
    ∧ inorder b' = Ok [] ∧ depth b' = Ok 0%nat.
Proof.
  intros Hrep Hin. rewrite (inorder_spec _ _ Hrep) in Hin.
  injection Hin as Hel.
  assert (k ∈ elements t) as Hk by (rewrite Hel; by left).
  destruct (descend_found k t (rep_sorted _ _ Hrep) Hk) as (l & z & r & Hnode).
  destruct (delete_present b t k l z r Hrep Hnode) as (b' & Hdel & Hrep' & _).
  assert (delete_tree k t = Leaf) as Ht'.
  { destruct (delete_tree k t) as [|l' i x r'] eqn:Heq; [done|].
    assert (x ∈ elements (delete_tree k t)) as Hx
      by (rewrite Heq; simpl; set_solver).
    apply elements_delete_tree in Hx as [Hx Hne]; [|apply Hrep].
    rewrite Hel in Hx. set_solver. }
  rewrite Ht' in Hrep'. exists z, b'. split; [done|].
  rewrite (rep_root _ _ Hrep'), (inorder_spec _ _ Hrep'),
    (depth_spec _ _ Hrep'). done.
Qed.

Lemma delete_last_key_empties_witness :
  ∃ z b',
    delete (mkBST [mkNode 7 None None None] (Some 0%nat)) 7 = Ok (Some z, b')
    ∧ root b' = None ∧ inorder b' = Ok [] ∧ depth b' = Ok 0%nat.
Proof.
  apply (delete_last_key_empties
           (mkBST [mkNode 7 None None None] (Some 0%nat))
           (Node Leaf 0%nat 7 Leaf) 7).
  - solve_represents.
  - reflexivity.
Defined.

(** X19.  Whatever the state, a successful insert writes to at most one
    node object that existed before, the returned parent [y], and changes
    only one child attribute of it; when there is no parent only the root
    reference changes. *)
Theorem insert_touches_parent_only b k z y b' :
  insert b k = Ok ((Some z, y), b') →
  (∀ i nd, heap b !! i = Some nd → Some i ≠ y → heap b' !! i = Some nd)
  ∧ (y = None → root b' = Some z)
  ∧ (∀ p np, y = Some p → heap b !! p = Some np →
       root b' = root b
       ∧ ∃ np', heap b' !! p = Some np'
           ∧ key np' = key np ∧ parent np' = parent np
           ∧ ((left np' = Some z ∧ right np' = right np)
              ∨ (left np' = left np ∧ right np' = Some z))).
Proof.
  unfold insert. intros (w & _ & H)%bind_Ok.
  destruct w as [x|y']; [done|].
  cbn [alloc] in H. apply bind_Ok in H as (b2 & Hb2 & H).
  injection H as <- <- <-.
  set (b1 := mkBST (heap b ++ [mkNode k None None y']) (root b)) in *.
  assert (∀ (i : nat) nd, heap b !! i = Some nd → heap b1 !! i = Some nd)
    as H1 by (intros i nd Hi; by apply lookup_app_l_Some).
  destruct y' as [p|].
  - apply bind_Ok in Hb2 as (ny & Hny & Hb2).
    apply load_Ok in Hny as (? & [= <-] & Hp).
    split; [|split; [done|]].
    + intros i nd Hi Hne. apply H1 in Hi.
      destruct (k <? key ny).
      * rewrite (set_left_Some _ _ _ _ Hp) in Hb2. injection Hb2 as <-.
        rewrite lookup_store_ne by congruence. done.
      * rewrite (set_right_Some _ _ _ _ Hp) in Hb2. injection Hb2 as <-.
        rewrite lookup_store_ne by congruence. done.
    + intros ? np [= <-] Hnp. apply H1 in Hnp.
      assert (Some ny = Some np) as [= ->]
        by (etransitivity; [symmetry; exact Hp|exact Hnp]).
      destruct (k <? key np).
      * rewrite (set_left_Some _ _ _ _ Hp) in Hb2. injection Hb2 as <-.
        split; [done|]. eexists. split; [by eapply lookup_store_eq|].
        simpl. split; [done|]. split; [done|]. by left.
      * rewrite (set_right_Some _ _ _ _ Hp) in Hb2. injection Hb2 as <-.
        split; [done|]. eexists. split; [by eapply lookup_store_eq|].
        simpl. split; [done|]. split; [done|]. by right.
  - injection Hb2 as <-. split; [|split; [done|done]].
    intros i nd Hi _. by apply H1.
Qed.

Lemma insert_touches_parent_only_witness :
  ∃ z y b',
    insert sample 5 = Ok ((Some z, y), b')
    ∧ (∀ i nd, heap sample !! i = Some nd → Some i ≠ y →
         heap b' !! i = Some nd)
    ∧ (y = None → root b' = Some z)
    ∧ (∀ p np, y = Some p → heap sample !! p = Some np →
         root b' = root sample
         ∧ ∃ np', heap b' !! p = Some np'
             ∧ key np' = key np ∧ parent np' = parent np
             ∧ ((left np' = Some z ∧ right np' = right np)
                ∨ (left np' = left np ∧ right np' = Some z))).
Proof.
  do 3 eexists. split; [vm_compute; reflexivity|].
  eapply (insert_touches_parent_only sample 5). vm_compute. reflexivity.
Defined.

(** X20.  From every well-formed tree, not only the empty one, every
    sequence of inserts and deletes succeeds and keeps the BST invariant
    and the link consistency; the traversal afterwards is strictly
    ascending and lists the keys of the traversal before, changed as the
    sequence says. *)
Theorem run_from_any_tree b t ks ops :
  represents b t → inorder b = Ok ks →
  ∃ b' ks',
    run b ops = Ok b' ∧ inorder b' = Ok ks'
    ∧ StronglySorted Z.lt ks'
    ∧ (∀ k, k ∈ ks' ↔ k ∈ key_set (list_to_set ks) ops)
    ∧ bst_invariant b' ∧ links_consistent b'.
Proof.
  intros Hrep Hin. rewrite (inorder_spec _ _ Hrep) in Hin.
  injection Hin as <-.
  destruct (run_spec ops b t (list_to_set (elements t)) Hrep)
    as (b' & t' & Hrun & Hrep' & Hset); [set_solver|].
  exists b', (elements t'). split; [done|].
  split; [by apply inorder_spec|]. split; [apply Hrep'|]. split; [done|].
  split; [by eapply represents_bst_invariant|].
  eapply shaped_links_consistent; apply Hrep'.
Qed.

Lemma run_from_any_tree_witness :
  ∃ b' ks',
    run sample [Delete 8; Insert 5] = Ok b' ∧ inorder b' = Ok ks'
    ∧ StronglySorted Z.lt ks'
    ∧ (∀ k, k ∈ ks' ↔
         k ∈ key_set (list_to_set [3; 8; 10]) [Delete 8; Insert 5])
    ∧ bst_invariant b' ∧ links_consistent b'.
Proof.
  apply (run_from_any_tree sample sample_tree [3; 8; 10]).
  - solve_represents.
  - reflexivity.
Defined.

Lemma sorted_on_path c : ∀ ks k,
  StronglySorted Z.lt (before c ++ ks ++ after c) → k ∈ ks →
  Forall (on_path k) c.
Proof.
  induction c as [|[i x r|l i x] c IH]; intros ks k Hso Hk; simpl in *;
    constructor.
  - simpl. apply StronglySorted_app in Hso as (_ & _ & Hso).
    eapply (StronglySorted_app_1_elem_of _ ks _ k x Hso); [done|by left].
  - apply (IH (ks ++ x :: elements r)); [|set_solver].
    by rewrite <- !app_assoc.
  - simpl.
    eapply (StronglySorted_app_1_elem_of _ _ _ x k Hso); set_solver.
  - apply (IH (elements l ++ x :: ks)); [|set_solver].
    replace (before c ++ (elements l ++ x :: ks) ++ after c)
      with ((before c ++ elements l ++ [x]) ++ ks ++ after c); [done|].
    rewrite <- !app_assoc. simpl. done.
Qed.

(** X21.  When the deleted node has two children, the node that takes its
    place, [minimum] of its right child, holds the in-order successor of
    the deleted key: the key that follows it in the traversal. *)
Theorem replacement_is_successor b t z nz lz rz :
  represents b t → in_tree b z → heap b !! z = Some nz →
  left nz = Some lz → right nz = Some rz →
  ∃ y ny ks1 ks2 b',
    minimum b (right nz) = Ok (Some y) ∧ heap b !! y = Some ny
    ∧ inorder b = Ok (ks1 ++ key nz :: key ny :: ks2)
    ∧ delete b (key nz) = Ok (Some z, b')
    ∧ inorder b' = Ok (ks1 ++ key ny :: ks2).
Proof.
  intros Hrep Hz Hnz Hlz Hrz.
  apply (in_tree_ids b t z (rep_root _ _ Hrep) (rep_shaped _ _ Hrep)) in Hz.
  destruct (ids_position t z Hz) as (c & l & k & r & Ht).
  pose proof (rep_shaped _ _ Hrep) as Hs. rewrite Ht in Hs.
  apply shaped_plug in Hs as [_ (Hz' & Hl & Hr)].
  rewrite Hz' in Hnz. injection Hnz as <-. cbn [left right key] in *.
  pose proof (rep_nodup _ _ Hrep) as Hnd. rewrite Ht in Hnd.
  apply NoDup_ids_plug in Hnd as (Hndn & _ & _).
  apply NoDup_ids_node in Hndn as (_ & Hndr & _).
  destruct (spliced_cases l r)
    as [[-> _]|[(_ & -> & _)|(_ & Hne & cr & y & ky & ry & Hlm & Hreq & Hb & Hspl)]];
    [done|done|].
  pose proof Hr as Hr'. rewrite Hreq in Hr'.
  apply shaped_plug in Hr' as [_ (Hy & _)].
  assert (descend k t = (c, Node l z k r)) as Hd.
  { rewrite Ht, descend_plug_on_path.
    - simpl. by rewrite Z.eqb_refl.
    - pose proof (rep_sorted _ _ Hrep) as Hso.
      rewrite Ht, elements_plug in Hso.
      eapply sorted_on_path; [exact Hso|]. simpl. set_solver. }
  destruct (delete_present b t k l z r Hrep) as (b' & Hdel & Hrep' & _);
    [by rewrite Hd|].
  unfold delete_tree in Hrep'. rewrite Hd, Hspl in Hrep'.
  eexists y, _, (before c ++ elements l),
    (elements ry ++ after cr ++ after c), b'.
  rewrite (minimum_spec b (Some z) r Hne Hr Hndr), Hlm.
  split; [done|]. split; [exact Hy|]. cbn [key].
  rewrite (inorder_spec _ _ Hrep), (inorder_spec _ _ Hrep'). split.
  - f_equal. rewrite Ht, elements_plug. simpl.
    rewrite Hreq, elements_plug, Hb. cbn [elements app].
    rewrite <- !app_assoc. cbn [app]. by rewrite <- !app_assoc.
  - split; [done|]. f_equal. rewrite elements_plug. cbn [elements].
    rewrite elements_plug, Hb, <- !app_assoc. cbn [app].
    by rewrite <- !app_assoc.
Qed.

Lemma replacement_is_successor_witness :
  ∃ y ny ks1 ks2 b',
    minimum sample (right (mkNode 8 (Some 1%nat) (Some 2%nat) None))
    = Ok (Some y)
    ∧ heap sample !! y = Some ny
    ∧ inorder sample
      = Ok (ks1 ++ key (mkNode 8 (Some 1%nat) (Some 2%nat) None)
              :: key ny :: ks2)
    ∧ delete sample (key (mkNode 8 (Some 1%nat) (Some 2%nat) None))
      = Ok (Some 0%nat, b')
    ∧ inorder b' = Ok (ks1 ++ key ny :: ks2).
Proof.
  apply (replacement_is_successor sample sample_tree 0%nat _ 1%nat 2%nat).
  - solve_represents.
  - constructor.
  - reflexivity.
  - reflexivity.
  - reflexivity.
Defined.

(** ** The empty tree *)

(** X22.  Whenever the root reference is empty, whatever objects the
    store still holds: [search] returns the empty path and no node,
    [delete] returns no node and leaves the state alone, [nodes] is empty,
    and [insert] allocates one leaf without parent, returns it with no
    parent, and makes it the root, touching no other object. *)
Theorem operations_on_empty_root b k :
  root b = None →
  search b k = Ok ([], None)
  ∧ delete b k = Ok (None, b)
  ∧ nodes b = Ok []
  ∧ insert b k
    = Ok ((Some (length (heap b)), None),
          mkBST (heap b ++ [mkNode k None None None])
                (Some (length (heap b)))).
Proof.
  intros Hroot.
  assert (search b k = Ok ([], None)) as Hsearch.
  { unfold search. rewrite Hroot. by destruct (length (heap b)). }
  split; [done|]. split; [|split].
  - unfold delete. by rewrite Hsearch.
  - unfold nodes. rewrite Hroot. by destruct (length (heap b)).
  - unfold insert. rewrite Hroot.
    assert (insert_loop (length (heap b)) b k None None = Ok (inr None))
      as -> by by destruct (length (heap b)).
    done.
Qed.

Lemma operations_on_empty_root_witness :
  search (clear sample) 4 = Ok ([], None)
  ∧ delete (clear sample) 4 = Ok (None, clear sample)
  ∧ nodes (clear sample) = Ok []
  ∧ insert (clear sample) 4
    = Ok ((Some (length (heap (clear sample))), None),
          mkBST (heap (clear sample) ++ [mkNode 4 None None None])
                (Some (length (heap (clear sample))))).
Proof. apply (operations_on_empty_root (clear sample) 4). reflexivity. Defined.
